(** * flask_kbpc.db.flaskalchemy.database: the generic entity base class

    A shallow embedding of [database.py]: the module-level helpers
    [check_inputs] and [sessioncommit], and the methods of the abstract
    model class [DeclarativeBase] (field introspection, the serializer
    [prepare], equality, and the lifecycle operations built on the session).

    The mapping engine, the session and the logger are collaborators: the
    engine's metadata is a record per entity class, the session and the
    logger are seen through the trace of calls made on them, and the result
    of each [db.session.commit()] is supplied by the environment. *)

From Stdlib Require Import ZArith String Ascii List Bool Lia.
From stdpp Require Import base option list strings gmap functions.

Local Open Scope string_scope.

(** ** Python values and exceptions *)

(** [datetime.datetime] (naive), with the fields [str] prints. *)
Record datetime := {
  year : nat; month : nat; day : nat;
  hour : nat; minute : nat; second : nat; microsecond : nat
}.

(** The values a column holds in an instance's [__dict__]: the scalar
    values of the column types the module declares and the dates it
    renders. Floats and container values are not part of the model. *)
Inductive pyval :=
  | PNone
  | PBool (b : bool)
  | PInt (z : Z)
  | PStr (s : string)
  | PDatetime (d : datetime).

#[global] Instance datetime_eq_dec : EqDecision datetime.
Proof. solve_decision. Defined.
#[global] Instance pyval_eq_dec : EqDecision pyval.
Proof. solve_decision. Defined.

(** The exceptions the module raises or lets through. *)
Inductive exn :=
  | ValueError (msg : string)
  | KeyError (key : string)
  | AttributeError (name : string)
  | TypeError (msg : string)
  | OperationalError (msg : string)
  | IntegrityError (msg : string)
  | OtherError (msg : string).

(** A call either returns or raises. *)
Inductive res (A : Type) :=
  | Ok (a : A)
  | Raise (e : exn).
Arguments Ok {A} a.
Arguments Raise {A} e.

(** [width] decimal digits of [n], zero padded (the [%0wd] of [str]). *)
Fixpoint zpad (width n : nat) : string :=
  match width with
  | O => ""
  | S w => zpad w (n / 10) +:+ String (ascii_of_nat (48 + n mod 10)) ""
  end.

(** [str(d)] for a naive datetime: ISO format with a space separator; the
    fraction is printed only when it is not zero. *)
Definition str_datetime (d : datetime) : string :=
  zpad 4 (year d) +:+ "-" +:+ zpad 2 (month d) +:+ "-" +:+ zpad 2 (day d)
  +:+ " " +:+ zpad 2 (hour d) +:+ ":" +:+ zpad 2 (minute d)
  +:+ ":" +:+ zpad 2 (second d)
  +:+ (if Nat.eqb (microsecond d) 0 then "" else "." +:+ zpad 6 (microsecond d)).

(** [a == b] on column values: [bool] is a subclass of [int], every other
    pair of distinct types is unequal. *)
Definition py_eqb (a b : pyval) : bool :=
  match a, b with
  | PNone, PNone => true
  | PBool x, PBool y => Bool.eqb x y
  | PBool x, PInt z | PInt z, PBool x => Z.eqb (Z.b2z x) z
  | PInt x, PInt y => Z.eqb x y
  | PStr x, PStr y => bool_decide (x = y)
  | PDatetime x, PDatetime y => bool_decide (x = y)
  | _, _ => false
  end.

(** [a != b] *)
Definition py_neb (a b : pyval) : bool := negb (py_eqb a b).

(** ** The mapping engine's metadata *)

Inductive attr_kind := ColumnAttr | RelationshipAttr.

(** An [InstrumentedAttribute]: the handle the engine puts on the class for
    a mapped column or relationship. *)
Record instrumented := {
  ia_key : string;
  ia_name : string;
  ia_kind : attr_kind
}.

(** What [getattr(cls, name)] can find on an entity class. *)
Inductive class_attr :=
  | CAInstrumented (ia : instrumented)
  | CAOther (name : string).

#[global] Instance attr_kind_eq_dec : EqDecision attr_kind.
Proof. solve_decision. Defined.
#[global] Instance instrumented_eq_dec : EqDecision instrumented.
Proof. solve_decision. Defined.
#[global] Instance class_attr_eq_dec : EqDecision class_attr.
Proof. solve_decision. Defined.

(** An entity class as the module sees it. *)
Record entity_class := {
  cls_name : string;
  (** [cls.__table__.columns.keys()] *)
  table_columns : list string;
  (** [cls.__mapper__.columns.keys()], also the keys of the mapper's
      [ColumnProperty] properties *)
  mapper_columns : list string;
  (** [cls.__mapper__.relationships.keys()] *)
  relationships : list string;
  (** attribute lookup on the class: [getattr(cls, name)] *)
  cls_getattr : gmap string class_attr;
  (** [cls.__dict__.keys()] *)
  cls_dict : list string
}.

#[global] Instance entity_class_eq_dec : EqDecision entity_class.
Proof. solve_decision. Defined.

(** A field reference: a plain name or an attribute-reference object. *)
Inductive fieldref :=
  | FName (s : string)
  | FAttr (ia : instrumented).

(** ** Instances and the object store *)

Definition addr := nat.

(** A Python object reachable through an attribute of an instance. *)
Inductive obj :=
  | OScalar (v : pyval)
  | OEntity (a : addr).

(** The value of an instance attribute: a list or a single object. *)
Inductive attrval :=
  | ASingle (o : obj)
  | AList (l : list obj).

Record instance := {
  (** [type(self)] *)
  icls : entity_class;
  (** the column state held in [self.__dict__] *)
  idict : gmap string pyval;
  (** what [getattr(self, name)] returns for the other attributes
      (relationships); a name that is absent raises *)
  iattrs : gmap string attrval
}.

(** Every reference denotes an object. *)
Definition heap := addr -> instance.

(** ** The session and the logger, seen through the calls made on them *)

Inductive event :=
  | SessionAdd (a : addr)
  | SessionDelete (a : addr)
  | SessionCommit
  | SessionRollback
  | SessionClose
  | LogInfo (msg : string)
  | LogError (msg : string).

(** What one [db.session.commit()] does. *)
Inductive commit_outcome :=
  | CommitOk
  | CommitOperational (msg : string)
  | CommitIntegrity (msg : string)
  | CommitOther (msg : string).

Record world := {
  objects : heap;
  (** the outcomes of the commits to come, first one first; past the end
      every commit succeeds *)
  outcomes : list commit_outcome;
  (** the calls made so far, oldest first *)
  trace : list event
}.

(** Stateful, fallible code: the state survives an exception. *)
Definition M (A : Type) := world -> res A * world.

#[global] Instance M_ret : MRet M := fun A a w => (Ok a, w).

#[global] Instance M_bind : MBind M := fun A B k m w =>
  match m w with
  | (Ok a, w') => k a w'
  | (Raise e, w') => (Raise e, w')
  end.

Definition raise {A} (e : exn) : M A := fun w => (Raise e, w).

(** [try: m / except: h] *)
Definition try_except {A} (m : M A) (h : exn -> M A) : M A :=
  fun w => match m w with
           | (Ok a, w') => (Ok a, w')
           | (Raise e, w') => h e w'
           end.

(** [try: m / finally: f] *)
Definition try_finally {A} (m : M A) (f : M unit) : M A :=
  fun w => match m w with
           | (r, w') => match f w' with
                        | (Ok _, w2) => (r, w2)
                        | (Raise e, w2) => (Raise e, w2)
                        end
           end.

Definition emit (e : event) : M unit :=
  fun w => (Ok tt, {| objects := objects w; outcomes := outcomes w;
                      trace := (trace w ++ [e])%list |}).

(** The calls on the logger and the session are recorded. What the engine
    does when it is called (refusing to delete an instance it does not
    hold, expiring the state of the instances and generating their ids at
    a commit) belongs to the engine and is not modelled: [objects] holds
    what this module assigns. *)
Definition logger_info (msg : string) : M unit := emit (LogInfo msg).
Definition logger_error (msg : string) : M unit := emit (LogError msg).
Definition session_add (a : addr) : M unit := emit (SessionAdd a).
Definition session_delete (a : addr) : M unit := emit (SessionDelete a).
Definition session_rollback : M unit := emit SessionRollback.
Definition session_close : M unit := emit SessionClose.

(** [str(e)] of an exception *)
Definition exn_str (e : exn) : string :=
  match e with
  | ValueError m | KeyError m | AttributeError m | TypeError m
  | OperationalError m | IntegrityError m | OtherError m => m
  end.

(** [db.session.commit()]: the call is recorded and the environment's next
    outcome decides whether it raises. *)
Definition session_commit : M unit :=
  fun w =>
    let w' := {| objects := objects w; outcomes := tail (outcomes w);
                 trace := (trace w ++ [SessionCommit])%list |} in
    match head (outcomes w) with
    | None | Some CommitOk => (Ok tt, w')
    | Some (CommitOperational m) => (Raise (OperationalError m), w')
    | Some (CommitIntegrity m) => (Raise (IntegrityError m), w')
    | Some (CommitOther m) => (Raise (OtherError m), w')
    end.

(** ** Module-level helpers *)

(** [getattr(cls, name)] *)
Definition getattr_cls (cls : entity_class) (name : string) : res class_attr :=
  match cls_getattr cls !! name with
  | Some a => Ok a
  | None => Raise (AttributeError name)
  end.

(** [check_inputs(cls, field, value)]. For an attribute reference
    [field.name] is read first: a relationship's reference has no [name];
    a column's reference has one (a string, so [key_name is None] never
    holds) and is then refused by [getattr], which is given [field]
    itself as the attribute name. *)
Definition check_inputs (cls : entity_class) (field : fieldref) (value : pyval)
  : res (gmap string pyval) :=
  match field with
  | FAttr ia =>
    match ia_kind ia with
    | RelationshipAttr => Raise (AttributeError "name")
    | ColumnAttr => Raise (TypeError "attribute name must be string")
    end
  | FName s =>
    match getattr_cls cls s with
    | Raise e => Raise e
    | Ok (CAOther _) => Raise (AttributeError "key")
    | Ok (CAInstrumented instrument) =>
      if bool_decide (ia_key instrument ∉ cls_dict cls)
      then Raise (ValueError "Invalid input field")
      else Ok {[ ia_key instrument := value ]}
    end
  end.

(** The message of the [finally] clause of [sessioncommit]. *)
Definition cycle_complete : string := "DB execution cycle complete".

(** [sessioncommit()] *)
Definition sessioncommit : M unit :=
  try_finally
    (try_except session_commit
       (fun e => match e with
                 | OperationalError _ =>
                     logger_info (exn_str e) ;;
                     session_rollback ;;
                     session_close ;;
                     session_close
                 | IntegrityError _ => raise e
                 | _ => raise e
                 end))
    (logger_info cycle_complete).

(** ** Serialized data *)

(** What [prepare] returns: the instance itself, or a [dict] from names to
    column values, to the dicts of related instances, or to lists of them. *)
#[warnings="-register-all"]
Inductive out :=
  | OVal (v : pyval)
  | OInst (a : addr)
  | ODict (d : list (string * out))
  | OList (l : list out).

(** A [dict] under construction, in insertion order. *)
Definition pydict := list (string * out).

(** [d[k]] as a lookup *)
Fixpoint dict_get (k : string) (d : pydict) : option out :=
  match d with
  | [] => None
  | (k', v) :: d' => if decide (k' = k) then Some v else dict_get k d'
  end.

(** [d[k] = v]: an existing key keeps its place. *)
Fixpoint dict_set (k : string) (v : out) (d : pydict) : pydict :=
  match d with
  | [] => [(k, v)]
  | (k', v') :: d' =>
      if decide (k' = k) then (k, v) :: d' else (k', v') :: dict_set k v d'
  end.

(** The [rel] argument [prepare] is written for: [False], [True], or a
    sequence of attribute references. Every other value a caller can pass
    is in [rel_value] below. *)
Inductive relarg :=
  | RelBool (b : bool)
  | RelList (l : list instrumented).

(** [rel is False] *)
Definition is_False (rel : relarg) : bool :=
  match rel with
  | RelBool false => true
  | _ => false
  end.

(** Any value a caller can pass as [rel]: [False] or [True]; a sequence,
    whose items may be attribute references or plain names; or a value
    that is neither and has no length ([None], a number). *)
Inductive rel_value :=
  | RVBool (b : bool)
  | RVSeq (items : list fieldref)
  | RVNoLen.

(** Any value a caller can pass as [exc]: [None] or a list, or a
    collection without [append] (a tuple). *)
Inductive exc_value :=
  | EVArg (exc : option (list string))
  | EVTuple (items : list string).

(** The arguments [prepare] is written for, among all values. *)
Definition rel_of (rel : relarg) : rel_value :=
  match rel with
  | RelBool b => RVBool b
  | RelList l => RVSeq (FAttr <$> l)
  end.

(** [rel is False] *)
Definition value_is_False (rel : rel_value) : bool :=
  match rel with
  | RVBool false => true
  | _ => false
  end.

(** [self.__dict__[c]] *)
Definition getitem (d : gmap string pyval) (c : string) : res pyval :=
  match d !! c with
  | Some v => Ok v
  | None => Raise (KeyError c)
  end.

(** [getattr(self, name)] on an instance: a relationship value, or the
    column value; anything else raises. *)
Definition getattr_inst (i : instance) (name : string) : res attrval :=
  match iattrs i !! name with
  | Some v => Ok v
  | None =>
    match idict i !! name with
    | Some v => Ok (ASingle (OScalar v))
    | None => Raise (AttributeError name)
    end
  end.

(** [setattr(self, name, value)] on a column attribute *)
Definition inst_set (name : string) (value : pyval) (i : instance) : instance :=
  {| icls := icls i; idict := <[name := value]> (idict i); iattrs := iattrs i |}.

Definition setattr (self : addr) (name : string) (value : pyval) : M unit :=
  fun w => (Ok tt, {| objects := <[self := inst_set name value (objects w self)]> (objects w);
                      outcomes := outcomes w; trace := trace w |}).

(** ** Keyword arguments, truth values and labels *)

(** The value a sequence of pairs binds [name] to, the keys read through
    [f]: a later pair overrides an earlier one, as assignments into a
    [dict] do. *)
Fixpoint assoc_last {K : Type} (f : K -> string) (name : string)
    (l : list (K * pyval)) : option pyval :=
  match l with
  | [] => None
  | (k, v) :: rest =>
    match assoc_last f name rest with
    | Some v' => Some v'
    | None => if decide (f k = name) then Some v else None
    end
  end.

(** [bool(v)], as [and] and [or] test a value. *)
Definition truthy (v : pyval) : bool :=
  match v with
  | PNone => false
  | PBool b => b
  | PInt z => negb (Z.eqb z 0)
  | PStr s => negb (bool_decide (s = ""))
  | PDatetime _ => true
  end.

(** [s.replace(old, new)] for one-character [old] and [new]. *)
Fixpoint replace_char (old new : ascii) (s : string) : string :=
  match s with
  | EmptyString => EmptyString
  | String c s' =>
    String (if decide (c = old) then new else c) (replace_char old new s')
  end.

(** An item of [get_schema]: [dict(name=..., key=...)]. *)
Record schema_item := {
  item_name : string;
  item_key : string
}.

(** ** class DeclarativeBase *)

Module DeclarativeBase.

(** *** Field introspection *)

(** [normalise(field)], for a plain name or the reference of a column; the
    reference of a relationship has no [name] and the code raises there. *)
Definition normalise (field : fieldref) : string :=
  match field with
  | FAttr ia => ia_name ia
  | FName s => s
  end.

(** [keys()]: a set *)
Definition keys (cls : entity_class) : gset string :=
  let all_keys : gset string := list_to_set (table_columns cls) in
  let relations : gset string := list_to_set (relationships cls) in
  all_keys ∖ relations.

(** [fields(inc, exc)]; [inc] is not read. *)
Definition fields (cls : entity_class) (inc exc : option (list fieldref))
  : list string :=
  let exc := default [] exc in
  (fun field => normalise (FName field)) <$>
    filter (fun key => key ∉ (normalise <$> exc)) (elements (keys cls)).

(** [getkey(field)] *)
Definition getkey (cls : entity_class) (field : fieldref) : res class_attr :=
  match field with
  | FAttr ia => getattr_cls cls (ia_key ia)
  | FName s => getattr_cls cls s
  end.

(** [columns()] *)
Definition columns (self : instance) : list string :=
  mapper_columns (icls self).

(** *** The serializer *)

(** One round of the column loop of [prepare]: only [KeyError] is caught. *)
Definition column_step (model_dictionary : gmap string pyval)
    (resp : pydict) (c : string) : res pydict :=
  match getitem model_dictionary c with
  | Ok (PDatetime d) => Ok (dict_set c (OVal (PStr (str_datetime d))) resp)
  | Ok v => Ok (dict_set c (OVal v) resp)
  | Raise (KeyError _) => Ok resp
  | Raise e => Raise e
  end.

(** [for c in columns: ...] *)
Fixpoint column_loop (model_dictionary : gmap string pyval)
    (columns : list string) (resp : pydict) : res pydict :=
  match columns with
  | [] => Ok resp
  | c :: rest =>
    match column_step model_dictionary resp c with
    | Ok resp' => column_loop model_dictionary rest resp'
    | Raise e => Raise e
    end
  end.

(** A run of serializer code: [None] when the recursion budget is spent,
    otherwise the result and the contents of the exclusion list, which
    every call shares and appends to. *)
Definition run (A : Type) := option (res A * list string).

(** The recursive call [i.prepare(rel=False, exc=exc)], as seen from the
    relationship loop. *)
Definition callee := addr -> relarg -> bool -> option (list string) -> run out.

(** [o.prepare(rel=False, exc=exc)]: only an entity has the method. *)
Definition prepare_obj (rec : callee) (o : obj) (exc : list string) : run out :=
  match o with
  | OScalar _ => Some (Raise (AttributeError "prepare"), exc)
  | OEntity b => rec b (RelBool false) true (Some exc)
  end.

(** [[i.prepare(rel=False, exc=exc) for i in l]] *)
Fixpoint prepare_each (rec : callee) (l : list obj) (exc : list string)
  : run (list out) :=
  match l with
  | [] => Some (Ok [], exc)
  | i :: rest =>
    match prepare_obj rec i exc with
    | None => None
    | Some (Raise e, exc') => Some (Raise e, exc')
    | Some (Ok v, exc') =>
      match prepare_each rec rest exc' with
      | None => None
      | Some (Raise e, exc2) => Some (Raise e, exc2)
      | Some (Ok vs, exc2) => Some (Ok (v :: vs), exc2)
      end
    end
  end.

(** The body of the [try] in the relationship loop: the value to store
    under [r]. *)
Definition relationship_value (rec : callee) (this : instance) (r : string)
    (exc : list string) : run out :=
  match getattr_inst this r with
  | Raise e => Some (Raise e, exc)
  | Ok (AList l) =>
    match prepare_each rec l exc with
    | None => None
    | Some (Raise e, exc') => Some (Raise e, exc')
    | Some (Ok vs, exc') => Some (Ok (OList vs), exc')
    end
  | Ok (ASingle o) => prepare_obj rec o exc
  end.

(** The relationship loop: [except Exception: pass] drops the key. *)
Fixpoint relationship_loop (rec : callee) (this : instance)
    (mapped_relationships : list string) (resp : pydict) (exc : list string)
  : run pydict :=
  match mapped_relationships with
  | [] => Some (Ok resp, exc)
  | r :: rest =>
    match relationship_value rec this r exc with
    | None => None
    | Some (Ok v, exc') => relationship_loop rec this rest (dict_set r v resp) exc'
    | Some (Raise _, exc') => relationship_loop rec this rest resp exc'
    end
  end.

(** The names the relationship loop runs over, once [rel] is known not to
    be [False]. *)
Definition selected (rel : relarg) (mapped_relationships : list string)
  : list string :=
  match rel with
  | RelBool _ => mapped_relationships
  | RelList [] => mapped_relationships
  | RelList l => ia_key <$> l
  end.

(** [prepare(rel, json, exc)] on the arguments it is written for ([rel] as
    above, [exc] absent or a list); [prepare_call] below is the method on
    any arguments. [exc = None] is the default argument; a list given by
    the caller is the list the call appends to, and the second component
    of the result is its contents afterwards. *)
Fixpoint prepare (fuel : nat) (h : heap) (self : addr) (rel : relarg)
    (json : bool) (exc : option (list string)) {struct fuel} : run out :=
  match fuel with
  | O => None
  | S fuel' =>
    let exc :=
      match exc with
      | None => ["password"]
      | Some l => (l ++ ["password"])%list
      end in
    if negb json then Some (Ok (OInst self), exc) else
    let this := h self in
    let columns := filter (fun col => col ∉ exc) (mapper_columns (icls this)) in
    let mapped_relationships := relationships (icls this) in
    match column_loop (idict this) columns [] with
    | Raise e => Some (Raise e, exc)
    | Ok resp =>
      if is_False rel || bool_decide (mapped_relationships = [])
      then Some (Ok (ODict resp), exc)
      else
        match relationship_loop (prepare fuel' h) this
                (selected rel mapped_relationships) resp exc with
        | None => None
        | Some (Raise e, exc') => Some (Raise e, exc')
        | Some (Ok resp', exc') => Some (Ok (ODict resp'), exc')
        end
    end
  end.

(** The relationship loop over a sequence given as [rel]: the [for]
    statement reads [item.key] of the next item before the [try] is
    entered, so a plain name ends the call with the exception. *)
Fixpoint relationship_items (rec : callee) (this : instance)
    (items : list fieldref) (resp : pydict) (exc : list string)
  : run pydict :=
  match items with
  | [] => Some (Ok resp, exc)
  | FName _ :: _ => Some (Raise (AttributeError "key"), exc)
  | FAttr ia :: rest =>
    match relationship_value rec this (ia_key ia) exc with
    | None => None
    | Some (Ok v, exc') =>
        relationship_items rec this rest (dict_set (ia_key ia) v resp) exc'
    | Some (Raise _, exc') => relationship_items rec this rest resp exc'
    end
  end.

(** [prepare(rel, json, exc)] for any arguments: [exc.append] fails on a
    tuple, [len(rel)] on a value without length, [item.key] on a plain
    name; none of the three is inside a [try]. The nested calls are made
    with [rel=False] and the list, as in [prepare]. *)
Definition prepare_call (fuel : nat) (h : heap) (self : addr)
    (rel : rel_value) (json : bool) (exc : exc_value) : run out :=
  match fuel with
  | O => None
  | S fuel' =>
    match exc with
    | EVTuple items => Some (Raise (AttributeError "append"), items)
    | EVArg exc =>
      let exc :=
        match exc with
        | None => ["password"]
        | Some l => (l ++ ["password"])%list
        end in
      if negb json then Some (Ok (OInst self), exc) else
      let this := h self in
      let columns := filter (fun col => col ∉ exc) (mapper_columns (icls this)) in
      let mapped_relationships := relationships (icls this) in
      match column_loop (idict this) columns [] with
      | Raise e => Some (Raise e, exc)
      | Ok resp =>
        if value_is_False rel || bool_decide (mapped_relationships = [])
        then Some (Ok (ODict resp), exc)
        else
          match
            match rel with
            | RVBool _ | RVSeq [] =>
                relationship_loop (prepare fuel' h) this mapped_relationships
                  resp exc
            | RVSeq items =>
                relationship_items (prepare fuel' h) this items resp exc
            | RVNoLen => Some (Raise (TypeError "object has no len()"), exc)
            end
          with
          | None => None
          | Some (Raise e, exc') => Some (Raise e, exc')
          | Some (Ok resp', exc') => Some (Ok (ODict resp'), exc')
          end
      end
    end
  end.

(** *** Equality *)

(** The comparison loop of [__eq__]. *)
Fixpoint eq_loop (base : list string)
    (base_dictionary comp_dictionary : gmap string pyval) : res bool :=
  match base with
  | [] => Ok true
  | column_name :: rest =>
    match getitem base_dictionary column_name with
    | Raise e => Raise e
    | Ok x =>
      match getitem comp_dictionary column_name with
      | Raise e => Raise e
      | Ok y =>
        if py_neb x y then Ok false
        else eq_loop rest base_dictionary comp_dictionary
      end
    end
  end.

(** [self == comparison] *)
Definition __eq__ (h : heap) (self : addr) (comparison : obj) : res bool :=
  match comparison with
  | OScalar _ => Raise (ValueError "Objects are not the same. Cannot compare")
  | OEntity other =>
    if bool_decide (icls (h self) ≠ icls (h other))
    then Raise (ValueError "Objects are not the same. Cannot compare")
    else
      let base := columns (h self) in
      let base_dictionary := idict (h self) in
      let comp_dictionary := idict (h self) in
      eq_loop base base_dictionary comp_dictionary
  end.

(** *** Lifecycle *)

(** [save(_commit)] *)
Definition save (self : addr) (_commit : bool) : M addr :=
  session_add self ;;
  (if _commit then sessioncommit else mret tt) ;;
  mret self.

(** The loop of [update]. *)
Fixpoint update_loop (self : addr) (kwargs : list (string * pyval)) : M unit :=
  match kwargs with
  | [] => mret tt
  | (attr, value) :: rest =>
    this ← (fun w => (Ok (objects w self), w)) ;
    (if bool_decide (attr ≠ "id")
        && bool_decide (attr ∈ fields (icls this) None None)
     then setattr self attr value
     else mret tt) ;;
    update_loop self rest
  end.

(** The body of [update(_commit, **kwargs)], with its parameters bound; an
    instance is truthy, so [_commit and self.save() or self] is the saved
    instance when [_commit] holds and [self] otherwise. *)
Definition update (self : addr) (_commit : bool)
    (kwargs : list (string * pyval)) : M addr :=
  update_loop self kwargs ;;
  if _commit then save self true else mret self.

(** The call [x.update] with the keywords [keywords]: Python binds a
    keyword [_commit] to the flag and refuses a keyword [self], which
    the instance already fills; the others make up [kwargs]. *)
Definition update_call (self : addr) (keywords : list (string * pyval))
  : M addr :=
  if bool_decide ("self" ∈ keywords.*1)
  then raise (TypeError "update() got multiple values for argument")
  else
    update self (from_option truthy true (assoc_last id "_commit" keywords))
      (filter (fun kv => kv.1 ≠ "_commit") keywords).

(** [sdelete(_commit)] *)
Definition sdelete (self : addr) (_commit : bool) : M addr :=
  setattr self "active" (PStr "D") ;;
  sessioncommit ;;
  if _commit then save self true else mret self.

(** [restore(_commit)] *)
Definition restore (self : addr) (_commit : bool) : M addr :=
  setattr self "active" (PStr "Y") ;;
  sessioncommit ;;
  if _commit then save self true else mret self.

(** [delete()] *)
Definition delete (self : addr) : M unit :=
  session_delete self ;;
  sessioncommit.

(** [commit()] *)
Definition commit (self : addr) : M unit := sessioncommit.

(** [close()] *)
Definition close (self : addr) : M unit := session_close.

(** [checkfilters(filters)]: [filters] in the order of its items. *)
Definition checkfilters (filters : list (fieldref * pyval)) : gmap string pyval :=
  fold_left (fun resp kv => <[normalise kv.1 := kv.2]> resp) filters ∅.

(** [get_schema(exclude)] *)
Definition get_schema (cls : entity_class) (exclude : option (list string))
  : list schema_item :=
  let exclude := default [] exclude in
  (fun item => {| item_name := replace_char "_" " " item; item_key := item |})
    <$> filter (fun key => key ∉ exclude) (table_columns cls).

(** [cls()] with the default constructor: nothing is in the [__dict__] of
    the new instance; [rels] is what the engine gives its relationships
    when they are read, [self] the reference the new object gets. *)
Definition construct (cls : entity_class) (rels : gmap string attrval)
    (self : addr) : M unit :=
  fun w => (Ok tt,
            {| objects := <[self := {| icls := cls; idict := ∅; iattrs := rels |}]>
                            (objects w);
               outcomes := outcomes w; trace := trace w |}).

(** [create], called on the class with the keywords [payload]. A keyword
    [cls] is refused before the body runs: the class already fills that
    parameter. The body builds the instance and calls [update] with the
    keyword [commit=False] and the payload; a payload key [commit] is
    then given twice, which Python refuses. The flag of [update] is named
    [_commit], so [commit=False] goes into its [kwargs] like a field. *)
Definition create (cls : entity_class) (rels : gmap string attrval)
    (self : addr) (payload : list (string * pyval)) : M addr :=
  if bool_decide ("cls" ∈ payload.*1)
  then raise (TypeError "create() got multiple values for argument")
  else
    construct cls rels self ;;
    if bool_decide ("commit" ∈ payload.*1)
    then raise (TypeError "update() got multiple values for keyword argument")
    else update_call self (("commit", PBool false) :: payload).

End DeclarativeBase.

(** ** A sample schema and object graph

    [Author] has a password column, a one-to-many relationship [books] and
    a many-to-one relationship [profile] that is not set; every [Book]
    refers back to its author and on to a [Publisher]. [Account] keeps its
    credentials behind a relationship that is itself named [password]. *)

Module Sample.

Definition column (name : string) : class_attr :=
  CAInstrumented {| ia_key := name; ia_name := name; ia_kind := ColumnAttr |}.

Definition relationship (name : string) : instrumented :=
  {| ia_key := name; ia_name := name; ia_kind := RelationshipAttr |}.

(** The class a declaration of [cols] and [rels] yields: the inherited
    methods are found by [getattr] but are not in the class's own
    [__dict__]. *)
Definition declare (name : string) (cols rels : list string) : entity_class :=
  {| cls_name := name;
     table_columns := cols;
     mapper_columns := cols;
     relationships := rels;
     cls_getattr :=
       list_to_map
         (((fun c => (c, column c)) <$> cols)
          ++ ((fun r => (r, CAInstrumented (relationship r))) <$> rels)
          ++ [("prepare", CAOther "prepare"); ("update", CAOther "update")])%list;
     cls_dict := (cols ++ rels)%list |}.

Definition Author : entity_class :=
  declare "Author" ["id"; "active"; "name"; "password"] ["books"; "profile"].
Definition Book : entity_class :=
  declare "Book" ["id"; "active"; "title"] ["author"; "publisher"].
Definition Publisher : entity_class :=
  declare "Publisher" ["id"; "active"; "label"; "founded"] [].
Definition Account : entity_class :=
  declare "Account" ["id"; "active"; "email"] ["password"; "profile"].
Definition Credential : entity_class :=
  declare "Credential" ["id"; "active"; "hash"] [].

Definition row (cls : entity_class) (cols : list (string * pyval))
    (rels : list (string * attrval)) : instance :=
  {| icls := cls; idict := list_to_map cols; iattrs := list_to_map rels |}.

Definition author : addr := 0.
Definition book1 : addr := 1.
Definition book2 : addr := 2.
Definition publisher : addr := 3.
Definition account : addr := 4.
Definition credential : addr := 5.
Definition author2 : addr := 6.

Definition founded : datetime :=
  {| year := 2020; month := 2; day := 29;
     hour := 9; minute := 5; second := 0; microsecond := 0 |}.

Definition store : heap := fun a =>
  match a with
  | 0 => row Author
           [("id", PInt 1); ("active", PStr "Y"); ("name", PStr "ann");
            ("password", PStr "hunter2")]
           [("books", AList [OEntity book1; OEntity book2]);
            ("profile", ASingle (OScalar PNone))]
  | 1 => row Book
           [("id", PInt 10); ("active", PStr "Y"); ("title", PStr "one")]
           [("author", ASingle (OEntity author));
            ("publisher", ASingle (OEntity publisher))]
  | 2 => row Book
           [("id", PInt 11); ("active", PStr "N"); ("title", PStr "two")]
           [("author", ASingle (OEntity author));
            ("publisher", ASingle (OEntity publisher))]
  | 3 => row Publisher
           [("id", PInt 7); ("active", PStr "Y"); ("label", PStr "press");
            ("founded", PDatetime founded)] []
  | 4 => row Account
           [("id", PInt 3); ("active", PStr "Y"); ("email", PStr "a@b.c")]
           [("password", ASingle (OEntity credential));
            ("profile", ASingle (OEntity credential))]
  | 5 => row Credential
           [("id", PInt 4); ("active", PStr "Y"); ("hash", PStr "5f4dcc")] []
  | 6 => row Author
           [("id", PInt 2); ("active", PStr "Y"); ("name", PStr "bob");
            ("password", PStr "swordfish")]
           [("books", AList []); ("profile", ASingle (OScalar PNone))]
  | _ => row Publisher [] []
  end.

(** A healthy session, and sessions whose next commit fails. *)
Definition calm : world :=
  {| objects := store; outcomes := []; trace := [] |}.
Definition failing (o : commit_outcome) : world :=
  {| objects := store; outcomes := [o]; trace := [] |}.

End Sample.

(** ** Observations used by the statements *)

Import DeclarativeBase.

(** The name every call of [prepare] adds to the exclusion list. *)
Definition pw : string := "password".

(** How the column loop stores a value. *)
Definition render (v : pyval) : out :=
  match v with
  | PDatetime d => OVal (PStr (str_datetime d))
  | _ => OVal v
  end.

(** The column loop of [prepare] without the exception plumbing. *)
Definition column_fold (d : gmap string pyval) (cs : list string)
    (resp : pydict) : pydict :=
  fold_left
    (fun resp c => match d !! c with
                   | Some v => dict_set c (render v) resp
                   | None => resp
                   end) cs resp.

(** The mapping [prepare] builds from the columns of [i] under the
    exclusion list [exc]. *)
Definition column_dict (i : instance) (exc : list string) : pydict :=
  column_fold (idict i)
    (filter (fun col => col ∉ exc) (mapper_columns (icls i))) [].

(** The names the relationship loop of a call visits. *)
Definition traversed (rel : relarg) (i : instance) : list string :=
  if is_False rel || bool_decide (relationships (icls i) = [])
  then []
  else selected rel (relationships (icls i)).

(** What the [try] body of the relationship loop computes for an object
    and for the relationship [r] of [i], when it does not raise: the object
    must be an entity, the attribute must exist and hold an entity or a
    list of entities. *)
Definition one_hop (h : heap) (exc : list string) (o : obj) : option out :=
  match o with
  | OEntity b => Some (ODict (column_dict (h b) exc))
  | OScalar _ => None
  end.

Definition related (h : heap) (exc : list string) (i : instance) (r : string)
  : option out :=
  match getattr_inst i r with
  | Raise _ => None
  | Ok (ASingle o) => one_hop h exc o
  | Ok (AList l) => OList <$> mapM (one_hop h exc) l
  end.

(** The exclusion list a call starts from. *)
Definition initial (exc : option (list string)) : list string :=
  match exc with
  | None => [pw]
  | Some l => (l ++ [pw])%list
  end.

Definition is_scalar (v : out) : Prop := ∃ x, v = OVal x.

(** A dict of scalars none of whose keys is in [X]. *)
Definition flat_dict (X : list string) (v : out) : Prop :=
  ∃ d, v = ODict d ∧ Forall (fun kv => is_scalar kv.2 ∧ kv.1 ∉ X) d.

(** What one relationship contributes: the flat dict of the related
    instance, or the list of the flat dicts of the related instances. *)
Definition hop (X : list string) (v : out) : Prop :=
  flat_dict X v ∨ ∃ l, v = OList l ∧ Forall (flat_dict X) l.

(** The events of one [sessioncommit()] and the exception it lets through,
    by the outcome of the session's commit. *)
Definition commit_events (o : option commit_outcome) : list event :=
  match o with
  | Some (CommitOperational m) =>
      [SessionCommit; LogInfo m; SessionRollback; SessionClose; SessionClose;
       LogInfo cycle_complete]
  | _ => [SessionCommit; LogInfo cycle_complete]
  end.

Definition escalated (o : option commit_outcome) : option exn :=
  match o with
  | Some (CommitIntegrity m) => Some (IntegrityError m)
  | Some (CommitOther m) => Some (OtherError m)
  | _ => None
  end.

Definition outcome_of {A} (o : option commit_outcome) (a : A) : res A :=
  match escalated o with
  | Some e => Raise e
  | None => Ok a
  end.

(** The test the loop of [update] applies to a name. *)
Definition assigns (cls : entity_class) (attr : string) : bool :=
  bool_decide (attr ≠ "id") && bool_decide (attr ∈ fields cls None None).

(** The name a field reference is looked up under by [getkey]. *)
Definition lookup_name (field : fieldref) : string :=
  match field with
  | FName s => s
  | FAttr ia => ia_key ia
  end.

(** Whether the character [c] occurs in [s]. *)
Fixpoint has_char (c : ascii) (s : string) : bool :=
  match s with
  | EmptyString => false
  | String c' s' => bool_decide (c' = c) || has_char c s'
  end.

(** The [__dict__] the loop of [update] leaves, without the state
    plumbing. *)
Definition apply_kwargs (cls : entity_class) (kwargs : list (string * pyval))
    (d : gmap string pyval) : gmap string pyval :=
  fold_left (fun d kv => if assigns cls kv.1 then <[kv.1 := kv.2]> d else d)
    kwargs d.

(** The entries of the column loop, in the order of the columns: one per
    column that is not excluded and is in the [__dict__]. *)
Definition column_items (i : instance) (exc : list string) : pydict :=
  omap (fun c => (fun v => (c, render v)) <$> idict i !! c)
    (filter (fun col => col ∉ exc) (mapper_columns (icls i))).

(** A call of a lifecycle method by a client. *)
Inductive call :=
  | CallSave (self : addr) (_commit : bool)
  | CallUpdate (self : addr) (_commit : bool) (kwargs : list (string * pyval))
  | CallSdelete (self : addr) (_commit : bool)
  | CallRestore (self : addr) (_commit : bool)
  | CallDelete (self : addr)
  | CallCommit (self : addr)
  | CallClose (self : addr).

Definition perform (c : call) : M unit :=
  match c with
  | CallSave self f => save self f ;; mret tt
  | CallUpdate self f kwargs => update self f kwargs ;; mret tt
  | CallSdelete self f => sdelete self f ;; mret tt
  | CallRestore self f => restore self f ;; mret tt
  | CallDelete self => delete self
  | CallCommit self => commit self
  | CallClose self => close self
  end.

(** A client that makes the calls in turn and goes on after an exception
    when [resume] says so. *)
Fixpoint client (resume : bool) (calls : list call) : M unit :=
  match calls with
  | [] => mret tt
  | c :: rest =>
    fun w => match perform c w with
             | (Ok _, w') => client resume rest w'
             | (Raise e, w') =>
               if resume then client resume rest w' else (Raise e, w')
             end
  end.

(** An instance with its [__dict__] replaced. *)
Definition with_dict (i : instance) (d : gmap string pyval) : instance :=
  {| icls := icls i; idict := d; iattrs := iattrs i |}.

(** Whether a field reference has a name to normalise to: a plain name,
    or the reference of a column. *)
Definition has_name (field : fieldref) : bool :=
  match field with
  | FName _ => true
  | FAttr ia => bool_decide (ia_kind ia = ColumnAttr)
  end.

#[global] Instance event_eq_dec : EqDecision event.
Proof. solve_decision. Defined.

(** How often the event [e] is in a trace. *)
Definition count (e : event) (evs : list event) : nat :=
  length (filter (fun e' => e' = e) evs).

Definition is_operational (o : commit_outcome) : bool :=
  match o with
  | CommitOperational _ => true
  | _ => false
  end.

(** The bookkeeping of commits and rollbacks between two worlds: the
    events added hold one commit per outcome consumed and one rollback per
    operational failure among those. *)
Definition accounts (w w' : world) : Prop :=
  ∃ evs,
    trace w' = (trace w ++ evs)%list
    ∧ outcomes w' = drop (count SessionCommit evs) (outcomes w)
    ∧ count SessionRollback evs
      = length (filter is_operational
                  (take (count SessionCommit evs) (outcomes w))).

(** ** Dictionaries *)

Section Dict.
Implicit Types (d : pydict) (k : string) (v : out).

Lemma dict_get_set_eq k v d : dict_get k (dict_set k v d) = Some v.
Proof.
  induction d as [|[k' v'] d IH]; simpl.
  - by rewrite decide_True.
  - destruct (decide (k' = k)) as [->|Hne]; simpl.
    + by rewrite decide_True.
    + by rewrite decide_False.
Qed.

Lemma dict_get_set_ne k k' v d :
  k ≠ k' → dict_get k' (dict_set k v d) = dict_get k' d.
Proof.
  intros Hne. induction d as [|[k0 v0] d IH]; simpl.
  - by rewrite decide_False.
  - destruct (decide (k0 = k)) as [->|Hne0]; simpl.
    + by rewrite !decide_False.
    + destruct (decide (k0 = k')); [done | apply IH].
Qed.

Lemma dict_get_elem k v d : dict_get k d = Some v → (k, v) ∈ d.
Proof.
  induction d as [|[k0 v0] d IH]; simpl; [done |].
  destruct (decide (k0 = k)) as [->|Hne].
  - intros [= ->]. apply list_elem_of_here.
  - intros H. apply list_elem_of_further, IH, H.
Qed.

Lemma dict_set_Forall (P : string * out → Prop) k v d :
  P (k, v) → Forall P d → Forall P (dict_set k v d).
Proof.
  intros Hkv. induction 1 as [|[k0 v0] d H0 Hd IH]; simpl.
  - by constructor.
  - destruct (decide (k0 = k)); constructor; auto.
Qed.

Lemma dict_get_Forall (P : string * out → Prop) k v d :
  Forall P d → dict_get k d = Some v → P (k, v).
Proof.
  intros HF Hget. rewrite list.Forall_forall in HF.
  apply HF, dict_get_elem, Hget.
Qed.

(** A key that fails [P] is not in a dict whose entries all pass. *)
Lemma dict_get_None_Forall (P : string → Prop) k d :
  Forall (fun kv => P kv.1) d → ¬ P k → dict_get k d = None.
Proof.
  intros HF Hk. destruct (dict_get k d) as [v|] eqn:E; [|done].
  exfalso. apply Hk. apply (dict_get_Forall (fun kv => P kv.1) k v d HF E).
Qed.
End Dict.

(** ** The column loop *)

Section Columns.

Lemma render_scalar v : is_scalar (render v).
Proof. destruct v; simpl; eexists; reflexivity. Qed.

(** A missing key raises [KeyError], which the loop catches: the loop as a
    whole never raises. *)
Lemma column_loop_fold d cs resp :
  column_loop d cs resp = Ok (column_fold d cs resp).
Proof.
  revert resp. induction cs as [|c cs IH]; intros resp; simpl; [done |].
  unfold column_step, getitem.
  destruct (d !! c) as [v|] eqn:E; simpl.
  - rewrite <- IH. by destruct v.
  - apply IH.
Qed.

Lemma column_fold_Forall (P : string * out → Prop) d cs resp :
  (∀ c v, c ∈ cs → P (c, render v)) →
  Forall P resp → Forall P (column_fold d cs resp).
Proof.
  revert resp. induction cs as [|c cs IH]; intros resp Hcs Hresp; simpl; [done |].
  apply IH.
  - intros c' v' Hin. apply Hcs. by apply list_elem_of_further.
  - destruct (d !! c) as [v|]; [|done].
    apply dict_set_Forall; [|done]. apply Hcs, list_elem_of_here.
Qed.

Lemma column_fold_get d cs resp c :
  dict_get c (column_fold d cs resp) =
    match (if bool_decide (c ∈ cs) then render <$> d !! c else None) with
    | Some v => Some v
    | None => dict_get c resp
    end.
Proof.
  revert resp. induction cs as [|c0 cs IH]; intros resp.
  - rewrite bool_decide_eq_false_2; [done | apply not_elem_of_nil].
  - change (column_fold d (c0 :: cs) resp)
      with (column_fold d cs (match d !! c0 with
                              | Some v => dict_set c0 (render v) resp
                              | None => resp
                              end)).
    rewrite IH. destruct (decide (c = c0)) as [->|Hne].
    + rewrite (bool_decide_eq_true_2 (c0 ∈ c0 :: cs)); [|apply list_elem_of_here].
      destruct (d !! c0) as [v|] eqn:E; cbn [fmap option_fmap option_map].
      * rewrite dict_get_set_eq. by destruct (bool_decide _).
      * by destruct (bool_decide _).
    + assert (bool_decide (c ∈ c0 :: cs) = bool_decide (c ∈ cs)) as ->.
      { apply bool_decide_ext. rewrite elem_of_cons.
        split; [intros [?|?]; done | by right]. }
      destruct (d !! c0) as [v|]; [|done].
      rewrite dict_get_set_ne by done. done.
Qed.

(** The columns of the mapping: every entry is a scalar under a mapped
    column that is not excluded. *)
Lemma column_dict_entries i exc :
  Forall (fun kv => is_scalar kv.2 ∧ kv.1 ∉ exc) (column_dict i exc).
Proof.
  unfold column_dict. apply (column_fold_Forall _ (idict i)); [|constructor].
  intros c v Hin. split; [apply render_scalar |].
  apply list_elem_of_filter in Hin. tauto.
Qed.

Lemma column_dict_get i exc c :
  dict_get c (column_dict i exc) =
    if bool_decide (c ∈ mapper_columns (icls i) ∧ c ∉ exc)
    then render <$> idict i !! c else None.
Proof.
  unfold column_dict. rewrite (column_fold_get (idict i)). simpl.
  assert (bool_decide (c ∈ filter (fun col => col ∉ exc) (mapper_columns (icls i)))
          = bool_decide (c ∈ mapper_columns (icls i) ∧ c ∉ exc)) as ->.
  { apply bool_decide_ext. rewrite list_elem_of_filter. tauto. }
  case_bool_decide; [|done]. by destruct (idict i !! c).
Qed.

(** Further copies of [pw] in the list exclude nothing new. *)
Lemma column_dict_more i exc k :
  pw ∈ exc → column_dict i (exc ++ repeat pw k)%list = column_dict i exc.
Proof.
  intros Hpw. unfold column_dict. f_equal.
  apply list_filter_iff. intros c.
  rewrite elem_of_app. split; intros H Hc; apply H.
  - by left.
  - destruct Hc as [Hc|Hc]; [done |].
    apply list_elem_of_In, repeat_spec in Hc. by subst.
Qed.

End Columns.

(** ** The relationship loop *)

Section Relationships.
Variables (h : heap) (n : nat) (e0 : list string).
Hypothesis pw_e0 : pw ∈ e0.

(** The callee of the loop: [prepare] with budget left for one call. *)
Let rec : callee := prepare (S n) h.

(** The exclusion list after [k] nested calls. *)
Let after (k : nat) : list string := (e0 ++ repeat pw k)%list.

Lemma after_S k : (after k ++ [pw])%list = after (S k).
Proof.
  unfold after. rewrite <- app_assoc. f_equal.
  symmetry. apply repeat_cons.
Qed.

(** A call with [rel=False] returns the columns and appends once. *)
Lemma prepare_flat (m : nat) (b : addr) (e : list string) :
  prepare (S m) h b (RelBool false) true (Some e)
  = Some (Ok (ODict (column_dict (h b) (e ++ [pw])%list)), (e ++ [pw])%list).
Proof.
  cbn [prepare negb is_False orb]. by rewrite column_loop_fold.
Qed.

Lemma prepare_obj_after o k :
  prepare_obj rec o (after k)
  = match one_hop h e0 o with
    | Some v => Some (Ok v, after (S k))
    | None => Some (Raise (AttributeError "prepare"), after k)
    end.
Proof.
  destruct o as [v|b]; [done |].
  unfold prepare_obj, rec. rewrite prepare_flat, after_S.
  unfold one_hop, after. by rewrite column_dict_more.
Qed.

Lemma prepare_each_after l k :
  ∃ k', prepare_each rec l (after k)
        = Some (match mapM (one_hop h e0) l with
                | Some vs => Ok vs
                | None => Raise (AttributeError "prepare")
                end, after k').
Proof.
  revert k. induction l as [|o l IH]; intros k.
  - by exists k.
  - cbn [prepare_each]. rewrite prepare_obj_after.
    cbn [mapM mbind option_bind]. destruct (one_hop h e0 o) as [v|].
    + destruct (IH (S k)) as [k' ->]. exists k'.
      cbn [mbind option_bind]. by destruct (mapM (one_hop h e0) l).
    + by exists k.
Qed.

Lemma relationship_value_after this r k :
  ∃ e k', relationship_value rec this r (after k)
          = Some (match related h e0 this r with
                  | Some v => Ok v
                  | None => Raise e
                  end, after k').
Proof.
  unfold relationship_value, related.
  destruct (getattr_inst this r) as [[o|l]|e].
  - rewrite prepare_obj_after. destruct (one_hop h e0 o).
    + by exists (AttributeError "prepare"), (S k).
    + by exists (AttributeError "prepare"), k.
  - destruct (prepare_each_after l k) as [k' ->].
    exists (AttributeError "prepare"), k'.
    by destruct (mapM (one_hop h e0) l).
  - by exists e, k.
Qed.

(** The loop never raises and never runs out of budget; under each name
    it visits it stores what [related] gives, and nothing when that
    fails. *)
Lemma relationship_loop_after this names resp k :
  ∃ resp' k',
    relationship_loop rec this names resp (after k) = Some (Ok resp', after k')
    ∧ (∀ key, dict_get key resp'
              = match (if bool_decide (key ∈ names)
                       then related h e0 this key else None) with
                | Some v => Some v
                | None => dict_get key resp
                end)
    ∧ (∀ P : string * out → Prop,
         (∀ r v, r ∈ names → related h e0 this r = Some v → P (r, v)) →
         Forall P resp → Forall P resp').
Proof.
  revert resp k. induction names as [|r names IH]; intros resp k.
  - exists resp, k. split; [done |]. split; [|done].
    intros key. rewrite bool_decide_eq_false_2; [done | apply not_elem_of_nil].
  - cbn [relationship_loop].
    destruct (relationship_value_after this r k) as (e & k1 & ->).
    destruct (related h e0 this r) as [v|] eqn:Hr.
    + destruct (IH (dict_set r v resp) k1) as (resp' & k' & -> & Hget & HP).
      exists resp', k'. split; [done |]. split.
      * intros key. rewrite Hget.
        destruct (decide (key = r)) as [->|Hne].
        -- rewrite (bool_decide_eq_true_2 (r ∈ r :: names)); [|apply list_elem_of_here].
           rewrite Hr, dict_get_set_eq. by destruct (bool_decide _).
        -- assert (bool_decide (key ∈ r :: names) = bool_decide (key ∈ names)) as ->.
           { apply bool_decide_ext. rewrite elem_of_cons.
             split; [intros [?|?]; done | by right]. }
           by rewrite dict_get_set_ne.
      * intros P HP0 Hresp. apply HP.
        -- intros r' v' Hin. apply HP0. by apply list_elem_of_further.
        -- apply dict_set_Forall; [|done]. apply HP0; [apply list_elem_of_here | done].
    + destruct (IH resp k1) as (resp' & k' & -> & Hget & HP).
      exists resp', k'. split; [done |]. split.
      * intros key. rewrite Hget.
        destruct (decide (key = r)) as [->|Hne].
        -- rewrite (bool_decide_eq_true_2 (r ∈ r :: names)); [|apply list_elem_of_here].
           rewrite Hr. by destruct (bool_decide _).
        -- assert (bool_decide (key ∈ r :: names) = bool_decide (key ∈ names)) as ->.
           { apply bool_decide_ext. rewrite elem_of_cons.
             split; [intros [?|?]; done | by right]. }
           done.
      * intros P HP0 Hresp. apply HP; [|done].
        intros r' v' Hin. apply HP0. by apply list_elem_of_further.
Qed.

End Relationships.

(** ** The serializer as a whole *)

Section Serializer.
Implicit Types (h : heap) (self : addr) (rel : relarg)
  (exc : option (list string)).

Lemma pw_initial exc : pw ∈ initial exc.
Proof.
  destruct exc as [l|]; simpl.
  - apply elem_of_app. right. apply list_elem_of_here.
  - apply list_elem_of_here.
Qed.

Lemma initial_spec exc key :
  key ∈ initial exc ↔ key = pw ∨ key ∈ default [] exc.
Proof.
  destruct exc as [l|]; simpl.
  - rewrite elem_of_app, list_elem_of_singleton. tauto.
  - rewrite list_elem_of_singleton. split; [by left |].
    intros [?|H]; [done | by apply not_elem_of_nil in H].
Qed.

Lemma one_hop_flat h e o v : one_hop h e o = Some v → flat_dict e v.
Proof.
  destruct o as [x|b]; [done |]. intros [= <-].
  eexists. split; [done | apply column_dict_entries].
Qed.

Lemma related_hop h e i r v : related h e i r = Some v → hop e v.
Proof.
  unfold related. destruct (getattr_inst i r) as [[o|l]|x]; [| |done].
  - intros H. left. by eapply one_hop_flat.
  - destruct (mapM (one_hop h e) l) as [vs|] eqn:E; [|done].
    intros [= <-]. right. exists vs. split; [done |].
    apply mapM_Some in E.
    induction E as [|o v l vs Hov _ IH]; constructor; [|done].
    by eapply one_hop_flat.
Qed.

Lemma hop_not_scalar X v : hop X v → ¬ is_scalar v.
Proof.
  intros [(d & -> & _)|(l & -> & _)] [x Hx]; discriminate.
Qed.

(** With [json] off the call returns the instance; the list has been
    appended to all the same. *)
Lemma prepare_instance n h self rel exc :
  prepare (S n) h self rel false exc = Some (Ok (OInst self), initial exc).
Proof. by destruct exc. Qed.

(** The mapping a call with [json] on returns: the columns, then under
    each visited relationship that resolves, its one hop. Two levels of
    calls are all the budget any object graph needs. *)
Lemma prepare_mapping n h self rel exc :
  ∃ resp k,
    prepare (S (S n)) h self rel true exc
    = Some (Ok (ODict resp), (initial exc ++ repeat pw k)%list)
    ∧ (∀ key, dict_get key resp
              = match (if bool_decide (key ∈ traversed rel (h self))
                       then related h (initial exc) (h self) key
                       else None) with
                | Some v => Some v
                | None => dict_get key (column_dict (h self) (initial exc))
                end)
    ∧ (∀ P : string * out → Prop,
         (∀ r v, r ∈ traversed rel (h self) →
                 related h (initial exc) (h self) r = Some v → P (r, v)) →
         Forall P (column_dict (h self) (initial exc)) → Forall P resp).
Proof.
  assert (prepare (S (S n)) h self rel true exc
          = if is_False rel || bool_decide (relationships (icls (h self)) = [])
            then Some (Ok (ODict (column_dict (h self) (initial exc))), initial exc)
            else match relationship_loop (prepare (S n) h) (h self)
                         (selected rel (relationships (icls (h self))))
                         (column_dict (h self) (initial exc)) (initial exc) with
                 | None => None
                 | Some (Raise e, exc') => Some (Raise e, exc')
                 | Some (Ok resp', exc') => Some (Ok (ODict resp'), exc')
                 end) as ->.
  { destruct exc; cbn [prepare negb initial]; by rewrite column_loop_fold. }
  unfold traversed.
  destruct (is_False rel || bool_decide (relationships (icls (h self)) = [])).
  - exists (column_dict (h self) (initial exc)), 0.
    rewrite app_nil_r. split; [done |]. split; [|auto].
    intros key. rewrite bool_decide_eq_false_2; [done | apply not_elem_of_nil].
  - destruct (relationship_loop_after h n (initial exc) (pw_initial exc) (h self)
                (selected rel (relationships (icls (h self))))
                (column_dict (h self) (initial exc)) 0)
      as (resp' & k' & Hloop & Hget & HP).
    cbn [repeat] in Hloop. rewrite app_nil_r in Hloop. rewrite Hloop.
    exists resp', k'. split; [done |]. split; [exact Hget | exact HP].
Qed.

(** The recursion is two calls deep whatever the budget. *)
Lemma prepare_obj_budget m1 m2 h o e :
  prepare_obj (prepare (S m1) h) o e = prepare_obj (prepare (S m2) h) o e.
Proof. destruct o as [v|b]; [done |]. cbn [prepare_obj]. by rewrite !prepare_flat. Qed.

Lemma prepare_each_budget m1 m2 h l e :
  prepare_each (prepare (S m1) h) l e = prepare_each (prepare (S m2) h) l e.
Proof.
  revert e. induction l as [|o l IH]; intros e; [done |].
  cbn [prepare_each]. rewrite (prepare_obj_budget m1 m2).
  destruct (prepare_obj (prepare (S m2) h) o e) as [[[v|x] e']|]; [|done|done].
  by rewrite IH.
Qed.

Lemma relationship_loop_budget m1 m2 h this names resp e :
  relationship_loop (prepare (S m1) h) this names resp e
  = relationship_loop (prepare (S m2) h) this names resp e.
Proof.
  revert resp e. induction names as [|r names IH]; intros resp e; [done |].
  cbn [relationship_loop]. unfold relationship_value.
  destruct (getattr_inst this r) as [[o|l]|x].
  - rewrite (prepare_obj_budget m1 m2).
    by destruct (prepare_obj (prepare (S m2) h) o e) as [[[v|x] e']|].
  - rewrite (prepare_each_budget m1 m2).
    by destruct (prepare_each (prepare (S m2) h) l e) as [[[v|x] e']|].
  - apply IH.
Qed.

Lemma prepare_unfold m h self rel json exc :
  prepare (S m) h self rel json exc
  = if negb json then Some (Ok (OInst self), initial exc) else
    match column_loop (idict (h self))
            (filter (fun col => col ∉ initial exc)
               (mapper_columns (icls (h self)))) [] with
    | Raise e => Some (Raise e, initial exc)
    | Ok resp =>
      if is_False rel || bool_decide (relationships (icls (h self)) = [])
      then Some (Ok (ODict resp), initial exc)
      else
        match relationship_loop (prepare m h) (h self)
                (selected rel (relationships (icls (h self)))) resp
                (initial exc) with
        | None => None
        | Some (Raise e, exc') => Some (Raise e, exc')
        | Some (Ok resp', exc') => Some (Ok (ODict resp'), exc')
        end
    end.
Proof. by destruct exc. Qed.

Lemma prepare_budget n h self rel json exc :
  prepare (S (S n)) h self rel json exc = prepare 2 h self rel json exc.
Proof.
  rewrite (prepare_unfold (S n)), (prepare_unfold 1).
  destruct (negb json); [done |].
  destruct (column_loop _ _ _) as [resp|e]; [|done].
  destruct (is_False rel || _); [done |].
  by rewrite (relationship_loop_budget n 0).
Qed.

(** When the [try] body raises, [related] has nothing to give. *)
Lemma prepare_each_raise m h l e x e' e0 :
  prepare_each (prepare (S m) h) l e = Some (Raise x, e') →
  mapM (one_hop h e0) l = None.
Proof.
  revert e. induction l as [|o l IH]; intros e; [done |].
  cbn [prepare_each]. destruct o as [v|b]; [done |].
  cbn [prepare_obj]. rewrite prepare_flat.
  destruct (prepare_each _ l _) as [[[vs|y] e2]|] eqn:E; [done| |done].
  intros [= -> ->]. cbn [mapM one_hop mbind option_bind].
  by rewrite (IH _ E).
Qed.

Lemma relationship_value_raise m h this r e x e' e0 :
  relationship_value (prepare (S m) h) this r e = Some (Raise x, e') →
  related h e0 this r = None.
Proof.
  unfold relationship_value, related.
  destruct (getattr_inst this r) as [[o|l]|y]; [| |done].
  - destruct o as [v|b]; [done |]. cbn [prepare_obj]. by rewrite prepare_flat.
  - destruct (prepare_each _ l e) as [[[vs|y] e2]|] eqn:E; [done| |done].
    intros [= -> ->]. by rewrite (prepare_each_raise _ _ _ _ _ _ e0 E).
Qed.

(** The loop over a sequence of references is the loop over their keys. *)
Lemma relationship_items_refs rec this l resp e :
  relationship_items rec this (FAttr <$> l) resp e
  = relationship_loop rec this (ia_key <$> l) resp e.
Proof.
  revert resp e. induction l as [|ia l IH]; intros resp e; [done |].
  cbn [fmap list_fmap relationship_items relationship_loop].
  destruct (relationship_value rec this (ia_key ia) e) as [[[v|x] e']|];
    [apply IH | apply IH | done].
Qed.

Lemma prepare_call_unfold m h self (rv : rel_value) json exc :
  prepare_call (S m) h self rv json (EVArg exc)
  = if negb json then Some (Ok (OInst self), initial exc) else
    match column_loop (idict (h self))
            (filter (fun col => col ∉ initial exc)
               (mapper_columns (icls (h self)))) [] with
    | Raise e => Some (Raise e, initial exc)
    | Ok resp =>
      if value_is_False rv || bool_decide (relationships (icls (h self)) = [])
      then Some (Ok (ODict resp), initial exc)
      else
        match
          match rv with
          | RVBool _ | RVSeq [] =>
              relationship_loop (prepare m h) (h self)
                (relationships (icls (h self))) resp (initial exc)
          | RVSeq items =>
              relationship_items (prepare m h) (h self) items resp (initial exc)
          | RVNoLen =>
              Some (Raise (TypeError "object has no len()"), initial exc)
          end
        with
        | None => None
        | Some (Raise e, exc') => Some (Raise e, exc')
        | Some (Ok resp', exc') => Some (Ok (ODict resp'), exc')
        end
    end.
Proof. by destruct exc. Qed.

(** On the arguments [prepare] is written for, the call is [prepare]. *)
Lemma prepare_call_typed fuel h self rel json exc :
  prepare_call fuel h self (rel_of rel) json (EVArg exc)
  = prepare fuel h self rel json exc.
Proof.
  destruct fuel as [|m]; [done |].
  rewrite prepare_call_unfold, prepare_unfold.
  destruct (negb json); [done |].
  destruct (column_loop _ _ _) as [resp|e]; [|done].
  destruct rel as [[|]|[|ia l]]; cbn [rel_of value_is_False is_False selected];
    try done.
  change (FAttr <$> ia :: l) with (FAttr ia :: (FAttr <$> l)).
  destruct (false || _); [done |].
  by rewrite <- (relationship_items_refs _ _ (ia :: l)).
Qed.

(** A plain name in the sequence ends the loop with the exception of
    [item.key], after the references before it have been visited. *)
Lemma relationship_items_name h n e0 this items resp k :
  pw ∈ e0 → (∃ s, FName s ∈ items) →
  ∃ k', relationship_items (prepare (S n) h) this items resp
          (e0 ++ repeat pw k)%list
        = Some (Raise (AttributeError "key"), (e0 ++ repeat pw k')%list).
Proof.
  intros Hpw. revert resp k.
  induction items as [|item items IH]; intros resp k [s Hin].
  - by apply elem_of_nil in Hin.
  - destruct item as [s'|ia]; [by exists k |].
    apply elem_of_cons in Hin as [Heq|Hin]; [done |].
    cbn [relationship_items].
    destruct (relationship_value_after h n e0 Hpw this (ia_key ia) k)
      as (e & k1 & ->).
    destruct (related h e0 this (ia_key ia)); apply IH; by exists s.
Qed.

End Serializer.

(** * The serializer: what the mapping holds *)

(** Closed decidable facts are settled by evaluation. *)
Ltac by_evaluation := apply (bool_decide_unpack _); vm_compute; exact I.

Section PrepareClaims.
Implicit Types (h : heap) (self : addr) (rel : relarg)
  (exc : option (list string)).

(** C3 (as amended). With plain-data output, no column of the instance
    that is named [password] or named in the caller's exclusion list is
    in the mapping: the caller's names are added to the default, and the
    same list filters the columns of every related instance that is
    serialized. The relationship loop does not consult the list: a key
    from the list is in the mapping only as a visited relationship of
    that name, and then holds that relationship's one hop, never a
    column value. *)
Theorem prepare_excludes_columns n h self rel exc key :
  key = pw ∨ key ∈ default [] exc →
  ∃ resp excl,
    prepare (S (S n)) h self rel true exc = Some (Ok (ODict resp), excl)
    ∧ (key ∉ traversed rel (h self) → dict_get key resp = None)
    ∧ (∀ v, dict_get key resp = Some v →
            key ∈ traversed rel (h self) ∧ ¬ is_scalar v
            ∧ related h (initial exc) (h self) key = Some v)
    ∧ Forall (fun kv => (is_scalar kv.2 ∧ kv.1 ∉ initial exc)
                        ∨ hop (initial exc) kv.2) resp.
Proof.
  intros Hkey. apply initial_spec in Hkey.
  destruct (prepare_mapping n h self rel exc) as (resp & k & Hrun & Hget & HP).
  exists resp, (initial exc ++ repeat pw k)%list. split; [done |].
  assert (dict_get key (column_dict (h self) (initial exc)) = None) as Hcol.
  { rewrite column_dict_get, bool_decide_eq_false_2; [done | tauto]. }
  split; [|split].
  - intros Hnot. rewrite Hget, bool_decide_eq_false_2 by done. exact Hcol.
  - intros v. rewrite Hget, Hcol. case_bool_decide as Hin; [|done].
    destruct (related h (initial exc) (h self) key) as [v'|] eqn:Hr; [|done].
    intros [= ->]. split; [done |]. split; [|done].
    eapply hop_not_scalar, related_hop, Hr.
  - apply HP.
    + intros r v _ Hr. right. eapply related_hop, Hr.
    + apply (list.Forall_impl _ _ _ (column_dict_entries _ _)).
      intros [c v] H. by left.
Qed.

(** C6. One hop and no more: the mapping of the root holds scalars and,
    under a visited relationship, the related instance's columns as a
    dict of scalars (or the list of such dicts). A dict of scalars has
    no room for the related instance's own relationships, so for A
    related to B related to C the entry for B carries B's columns and
    nothing of C. The nested calls pass [rel=False], so two levels of
    calls serve every object graph, cyclic ones included. *)
Theorem prepare_one_hop n h self rel exc :
  prepare (S (S n)) h self rel true exc = prepare 2 h self rel true exc
  ∧ ∃ resp excl,
      prepare 2 h self rel true exc = Some (Ok (ODict resp), excl)
      ∧ Forall (fun kv => is_scalar kv.2 ∨ hop (initial exc) kv.2) resp
      ∧ (∀ r b, r ∈ traversed rel (h self) →
           getattr_inst (h self) r = Ok (ASingle (OEntity b)) →
           ∃ d, dict_get r resp = Some (ODict d)
                ∧ Forall (fun kv => is_scalar kv.2) d
                ∧ ∀ c, dict_get c d
                       = if bool_decide (c ∈ mapper_columns (icls (h b))
                                         ∧ c ∉ initial exc)
                         then render <$> idict (h b) !! c else None)
      ∧ (∀ r bs, r ∈ traversed rel (h self) →
           getattr_inst (h self) r = Ok (AList (OEntity <$> bs)) →
           dict_get r resp
           = Some (OList ((fun b => ODict (column_dict (h b) (initial exc)))
                          <$> bs))).
Proof.
  split; [apply prepare_budget |].
  destruct (prepare_mapping 0 h self rel exc) as (resp & k & Hrun & Hget & HP).
  exists resp, (initial exc ++ repeat pw k)%list. split; [done |].
  split; [|split].
  - apply HP.
    + intros r v _ Hr. right. eapply related_hop, Hr.
    + apply (list.Forall_impl _ _ _ (column_dict_entries _ _)).
      intros [c v] [H _]. by left.
  - intros r b Hin Hattr. exists (column_dict (h b) (initial exc)).
    split; [|split].
    + rewrite Hget, bool_decide_eq_true_2 by done.
      unfold related. by rewrite Hattr.
    + apply (list.Forall_impl _ _ _ (column_dict_entries _ _)). by intros [c v] [H _].
    + apply column_dict_get.
  - intros r bs Hin Hattr.
    rewrite Hget, bool_decide_eq_true_2 by done.
    unfold related. rewrite Hattr.
    assert (mapM (one_hop h (initial exc)) (OEntity <$> bs)
            = Some ((fun b => ODict (column_dict (h b) (initial exc))) <$> bs))
      as ->; [|done].
    clear. induction bs as [|b bs IH]; [done |].
    cbn [fmap list_fmap mapM one_hop mbind option_bind].
    change (mapM (one_hop h (initial exc)) (OEntity <$> bs)
            ≫= (fun k => mret (ODict (column_dict (h b) (initial exc)) :: k))
            = Some (ODict (column_dict (h b) (initial exc))
                    :: ((fun b => ODict (column_dict (h b) (initial exc))) <$> bs))).
    by rewrite IH.
Qed.

(** C7 (as amended). Called with [rel] a bool or a sequence of attribute
    references and [exc] absent or a list, [prepare] never raises,
    whatever the instance and [json]: when the [try] body of the
    relationship loop raises for a name the loop stores nothing under
    it, so the mapping has there what the columns gave, which is nothing
    unless the name is also a mapped column; and a column that is missing
    from the instance's [__dict__] is skipped. Outside those arguments
    the call does raise: on an [exc] without [append], whatever the rest;
    and, with [json] on and relationships declared, on a [rel] without
    length and on a sequence that holds a plain name. *)
Theorem prepare_never_raises n h self rel json exc :
  prepare_call (S (S n)) h self (rel_of rel) json (EVArg exc)
  = prepare (S (S n)) h self rel json exc
  ∧ (∃ v excl,
       prepare_call (S (S n)) h self (rel_of rel) json (EVArg exc)
       = Some (Ok v, excl)
       ∧ (json = true →
          ∃ resp, v = ODict resp
            ∧ (∀ r e x e',
                 relationship_value (prepare (S n) h) (h self) r e
                 = Some (Raise x, e') →
                 dict_get r resp = dict_get r (column_dict (h self) (initial exc))
                 ∧ (r ∉ mapper_columns (icls (h self)) → dict_get r resp = None))
            ∧ (∀ c, idict (h self) !! c = None →
                    c ∉ traversed rel (h self) → dict_get c resp = None)))
  ∧ (∀ (rv : rel_value) items,
       prepare_call (S n) h self rv json (EVTuple items)
       = Some (Raise (AttributeError "append"), items))
  ∧ (relationships (icls (h self)) ≠ [] →
     prepare_call (S (S n)) h self RVNoLen true (EVArg exc)
     = Some (Raise (TypeError "object has no len()"), initial exc))
  ∧ (relationships (icls (h self)) ≠ [] →
     ∀ items s, FName s ∈ items →
       ∃ excl, prepare_call (S (S n)) h self (RVSeq items) true (EVArg exc)
               = Some (Raise (AttributeError "key"), excl)).
Proof.
  split; [apply prepare_call_typed |]. split; [|split; [done |split]].
  - rewrite prepare_call_typed. destruct json.
    + destruct (prepare_mapping n h self rel exc) as (resp & k & Hrun & Hget & _).
      exists (ODict resp), (initial exc ++ repeat pw k)%list. split; [done |].
      intros _. exists resp. split; [done |]. split.
      * intros r e x e' Hraise.
        assert (dict_get r resp = dict_get r (column_dict (h self) (initial exc)))
          as Heq.
        { rewrite Hget.
          rewrite (relationship_value_raise _ _ _ _ _ _ _ (initial exc) Hraise).
          by destruct (bool_decide _). }
        split; [done |]. intros Hcol. rewrite Heq, column_dict_get.
        rewrite bool_decide_eq_false_2; [done | tauto].
      * intros c Hc Hnot. rewrite Hget, bool_decide_eq_false_2 by done.
        rewrite column_dict_get, Hc. by destruct (bool_decide _).
    + exists (OInst self), (initial exc). split; [|done].
      apply prepare_instance.
  - intros Hrels. rewrite prepare_call_unfold. cbn [negb value_is_False orb].
    rewrite column_loop_fold. by rewrite bool_decide_eq_false_2.
  - intros Hrels items s Hin. rewrite prepare_call_unfold.
    cbn [negb value_is_False orb]. rewrite column_loop_fold.
    rewrite bool_decide_eq_false_2 by done.
    destruct (relationship_items_name h n (initial exc) (h self) items
                (column_dict (h self) (initial exc)) 0 (pw_initial exc))
      as [k' Hloop]; [by exists s |].
    cbn [repeat] in Hloop. rewrite app_nil_r in Hloop.
    exists (initial exc ++ repeat pw k')%list.
    destruct items as [|item items]; [by apply elem_of_nil in Hin |].
    unfold column_dict in Hloop. by rewrite Hloop.
Qed.

(** C10. A list passed as [exc] is appended to in place: with [json] off
    the instance comes back and the list has one more [password]; with
    [json] on it has at least one more (one per call, nested calls
    included); and calls that reuse the list pile the copies up. *)
Theorem prepare_appends_to_callers_list n h self rel l :
  prepare (S n) h self rel false (Some l)
  = Some (Ok (OInst self), (l ++ [pw])%list)
  ∧ (∀ json, ∃ v k,
       prepare (S (S n)) h self rel json (Some l)
       = Some (Ok v, (l ++ repeat pw (S k))%list))
  ∧ (∀ json m,
       Nat.iter m
         (fun l' => match prepare (S n) h self (RelBool false) json (Some l') with
                    | Some (_, l2) => l2
                    | None => l'
                    end) l
       = (l ++ repeat pw m)%list).
Proof.
  split; [apply prepare_instance |]. split.
  - intros [|].
    + destruct (prepare_mapping n h self rel (Some l)) as (resp & k & -> & _).
      exists (ODict resp), k. cbn [initial repeat]. by rewrite <- app_assoc.
    + exists (OInst self), 0. by rewrite prepare_instance.
  - intros json m. induction m as [|m IH].
    + cbn [repeat]. by rewrite app_nil_r.
    + rewrite Nat.iter_succ, IH. cbn [repeat]. destruct json.
      * rewrite prepare_flat, <- app_assoc. f_equal. symmetry. apply repeat_cons.
      * rewrite prepare_instance. cbn [initial].
        rewrite <- app_assoc. f_equal. symmetry. apply repeat_cons.
Qed.

End PrepareClaims.

(** * The session: commit and the operations built on it *)

Section Session.
Implicit Types (w : world) (self : addr).

(** One [sessioncommit()]: the events by the outcome of the session's
    commit, and the exception only for the classes that are re-raised. *)
Lemma sessioncommit_run w :
  sessioncommit w
  = (outcome_of (head (outcomes w)) tt,
     {| objects := objects w; outcomes := tail (outcomes w);
        trace := (trace w ++ commit_events (head (outcomes w)))%list |}).
Proof.
  destruct w as [objs os tr]. destruct os as [|[|m|m|m] os];
    unfold sessioncommit, try_finally, try_except, session_commit, logger_info,
      session_rollback, session_close, emit, raise, outcome_of, mbind, M_bind;
    cbn; by rewrite <- ?app_assoc.
Qed.

Lemma commit_events_last o :
  ∃ evs, commit_events o
         = (SessionCommit :: evs ++ [LogInfo cycle_complete])%list.
Proof.
  destruct o as [[|m|m|m]|].
  2: by exists [LogInfo m; SessionRollback; SessionClose; SessionClose].
  all: by exists [].
Qed.

Lemma save_run self (c : bool) w :
  save self c w
  = if c
    then (outcome_of (head (outcomes w)) self,
          {| objects := objects w; outcomes := tail (outcomes w);
             trace := (trace w ++ SessionAdd self
                               :: commit_events (head (outcomes w)))%list |})
    else (Ok self,
          {| objects := objects w; outcomes := outcomes w;
             trace := (trace w ++ [SessionAdd self])%list |}).
Proof.
  destruct c.
  - unfold save, session_add, emit, mbind, M_bind. rewrite sessioncommit_run.
    cbn. rewrite <- app_assoc. unfold outcome_of.
    by destruct (escalated (head (outcomes w))).
  - done.
Qed.

(** [attr in self.fields()] is membership in [keys()]. *)
Lemma elem_of_fields cls attr :
  attr ∈ fields cls None None ↔ attr ∈ keys cls.
Proof.
  unfold fields. rewrite list_elem_of_fmap. split.
  - intros (key & -> & Hin). apply list_elem_of_filter in Hin as [_ Hin].
    by apply elem_of_elements in Hin.
  - intros Hin. exists attr. split; [done |].
    apply list_elem_of_filter. split; [apply not_elem_of_nil |].
    by apply elem_of_elements.
Qed.

Lemma update_loop_cons self attr value rest w :
  update_loop self ((attr, value) :: rest) w
  = update_loop self rest
      (if assigns (icls (objects w self)) attr
       then snd (setattr self attr value w) else w).
Proof.
  unfold assigns. cbn [update_loop]. unfold mbind, M_bind at 1 2. cbn.
  by destruct (bool_decide (attr ≠ "id") && _).
Qed.

(** The loop never raises, leaves the session alone, and leaves every
    [id] as it was. *)
Lemma update_loop_run self kwargs w :
  ∃ objs,
    update_loop self kwargs w
    = (Ok tt, {| objects := objs; outcomes := outcomes w; trace := trace w |})
    ∧ ∀ b, idict (objs b) !! "id" = idict (objects w b) !! "id".
Proof.
  revert w. induction kwargs as [|[attr value] rest IH]; intros w.
  - exists (objects w). by destruct w.
  - rewrite update_loop_cons.
    destruct (assigns (icls (objects w self)) attr) eqn:Hassign; [|apply IH].
    destruct (IH (setattr self attr value w).2) as (objs & -> & Hid).
    exists objs. split; [done |]. intros b. rewrite Hid.
    unfold setattr. cbn [snd objects].
    destruct (decide (b = self)) as [->|Hne].
    + rewrite (fn_lookup_insert (objects w)). cbn [inst_set idict].
      apply lookup_insert_ne.
      unfold assigns in Hassign. apply andb_prop in Hassign as [Hid' _].
      apply bool_decide_eq_true in Hid'. congruence.
    + by rewrite (fn_lookup_insert_ne (objects w)).
Qed.

End Session.

Section LifecycleClaims.
Implicit Types (w : world) (self : addr) (objs : heap)
  (os : list commit_outcome) (tr : list event).

(** C1. [sessioncommit] by the class of the failure: an operational
    failure is logged, the session is rolled back and closed, and the
    call returns; an integrity failure reaches the caller; so does any
    other failure; and whatever happens, the last thing the call does is
    to log the cycle-complete message. *)
Theorem sessioncommit_classifies objs os tr :
  (∀ m, sessioncommit {| objects := objs; outcomes := CommitOperational m :: os;
                         trace := tr |}
        = (Ok tt,
           {| objects := objs; outcomes := os;
              trace := (tr ++ [SessionCommit; LogInfo m; SessionRollback;
                               SessionClose; SessionClose;
                               LogInfo cycle_complete])%list |}))
  ∧ (∀ m, sessioncommit {| objects := objs; outcomes := CommitIntegrity m :: os;
                           trace := tr |}
          = (Raise (IntegrityError m),
             {| objects := objs; outcomes := os;
                trace := (tr ++ [SessionCommit; LogInfo cycle_complete])%list |}))
  ∧ (∀ m, sessioncommit {| objects := objs; outcomes := CommitOther m :: os;
                           trace := tr |}
          = (Raise (OtherError m),
             {| objects := objs; outcomes := os;
                trace := (tr ++ [SessionCommit; LogInfo cycle_complete])%list |}))
  ∧ sessioncommit {| objects := objs; outcomes := CommitOk :: os; trace := tr |}
    = (Ok tt,
       {| objects := objs; outcomes := os;
          trace := (tr ++ [SessionCommit; LogInfo cycle_complete])%list |})
  ∧ (∀ w, list.last (trace (sessioncommit w).2)
          = Some (LogInfo cycle_complete)).
Proof.
  repeat split; try (intros m; by rewrite sessioncommit_run).
  - by rewrite sessioncommit_run.
  - intros w. rewrite sessioncommit_run. cbn [snd trace].
    destruct (commit_events_last (head (outcomes w))) as [evs ->].
    by rewrite app_comm_cons, app_assoc, last_snoc.
Qed.

(** C4. [update] never assigns to [id]: whatever pairs the caller gives,
    [id=v] among them, and whether or not the commit that follows
    succeeds, the [id] of the instance is what it was. *)
Theorem update_keeps_id self (c : bool) kwargs w :
  idict (objects (update self c kwargs w).2 self) !! "id"
  = idict (objects w self) !! "id".
Proof.
  unfold update, mbind, M_bind.
  destruct (update_loop_run self kwargs w) as (objs & -> & Hid).
  destruct c; [rewrite save_run|]; cbn [snd objects]; apply Hid.
Qed.

(** C5 (as amended). A name that is not in [keys()] and is not one of the
    parameters of [update] is dropped: the call does what it does without
    that keyword, no attribute of any instance changes, and nothing is
    raised on account of the name. With the commit flag on (the default)
    the call still saves and commits, and an exception of the commit that
    [sessioncommit] re-raises reaches the caller; with the flag off the
    call returns the instance. The parameter names are not dropped: the
    keyword [self] is refused with [TypeError], and the keyword [_commit]
    is the flag. *)
Theorem update_drops_unknown_field self (flag : option pyval) f v w :
  let given := match flag with
               | Some b => [("_commit", b)]
               | None => []
               end in
  (f ∉ keys (icls (objects w self)) → f ≠ "self" → f ≠ "_commit" →
   update_call self (given ++ [(f, v)]) w = update_call self given w
   ∧ objects (update_call self (given ++ [(f, v)]) w).2 = objects w
   ∧ (update_call self (given ++ [(f, v)]) w).1
     = if from_option truthy true flag
       then outcome_of (head (outcomes w)) self else Ok self)
  ∧ update_call self [("self", v)] w
    = (Raise (TypeError "update() got multiple values for argument"), w)
  ∧ update_call self [("_commit", v)] w = update self (truthy v) [] w.
Proof.
  cbv zeta. split; [|by split].
  intros Hf Hself Hcommit.
  assert (update_loop self [(f, v)] w = update_loop self [] w) as Hloop.
  { rewrite update_loop_cons. unfold assigns.
    rewrite (bool_decide_eq_false_2 (f ∈ _)); [|by rewrite elem_of_fields].
    by rewrite andb_false_r. }
  assert (∀ c, update self c [(f, v)] w = update self c [] w) as Heq.
  { intros c. unfold update, mbind, M_bind. by rewrite Hloop. }
  assert (∀ names : list string,
            Forall (fun name => name ≠ "self") names →
            bool_decide ("self" ∈ names) = false) as Hnames.
  { intros names Hall. apply bool_decide_eq_false_2. intros Hin.
    rewrite list.Forall_forall in Hall. by apply (Hall _ Hin). }
  unfold update_call. destruct flag as [b|]; cbn [app fmap list_fmap fst].
  - rewrite !Hnames by (repeat constructor; congruence).
    cbn [assoc_last id]. rewrite !list.filter_cons, !list.filter_nil. cbn [fst].
    rewrite (decide_False (P := f = "_commit")) by done.
    rewrite (decide_True (P := "_commit" = "_commit")) by done.
    rewrite (decide_True (P := f ≠ "_commit")) by done.
    rewrite (decide_False (P := "_commit" ≠ "_commit")) by (intros H; by apply H).
    cbn [from_option]. rewrite Heq. split; [done |].
    unfold update, mbind, M_bind. cbn [update_loop mret M_ret].
    destruct (truthy b); [by rewrite save_run | done].
  - rewrite !Hnames by (repeat constructor; congruence).
    cbn [assoc_last id]. rewrite !list.filter_cons, !list.filter_nil. cbn [fst].
    rewrite (decide_False (P := f = "_commit")) by done.
    rewrite (decide_True (P := f ≠ "_commit")) by done.
    cbn [from_option]. rewrite Heq. split; [done |].
    unfold update, mbind, M_bind. cbn [update_loop mret M_ret].
    by rewrite save_run.
Qed.

(** C8. [sdelete] sets [active] to ["D"] and [restore] sets it to ["Y"];
    each then runs [sessioncommit] at once, whatever the flag; [save]
    (a [session.add] and one more [sessioncommit]) follows only when the
    flag is on, and with the flag off the call returns [self]. Should the
    first commit re-raise, the attribute stays set and the call ends
    there. *)
Theorem sdelete_restore_commit_first self (c : bool) w :
  let o1 := head (outcomes w) in
  let o2 := head (tail (outcomes w)) in
  let then_save :=
    if c then match escalated o1 with
              | None => SessionAdd self :: commit_events o2
              | Some _ => []
              end
    else [] in
  let result :=
    match escalated o1 with
    | Some e => Raise e
    | None => if c then outcome_of o2 self else Ok self
    end in
  (idict (objects (sdelete self c w).2 self) !! "active" = Some (PStr "D")
   ∧ trace (sdelete self c w).2
     = (trace w ++ SessionCommit :: tail (commit_events o1) ++ then_save)%list
   ∧ (sdelete self c w).1 = result)
  ∧ (idict (objects (restore self c w).2 self) !! "active" = Some (PStr "Y")
     ∧ trace (restore self c w).2
       = (trace w ++ SessionCommit :: tail (commit_events o1) ++ then_save)%list
     ∧ (restore self c w).1 = result).
Proof.
  assert (∀ o, (SessionCommit :: tail (commit_events o) = commit_events o)%list)
    as Hhd by (by intros [[|m|m|m]|]).
  cbv zeta. rewrite !app_comm_cons, !Hhd.
  unfold sdelete, restore, setattr, mbind, M_bind.
  rewrite !sessioncommit_run. unfold outcome_of. cbn [objects outcomes trace].
  destruct (escalated (head (outcomes w))) as [e|] eqn:He; cbn [fst snd objects trace].
  - rewrite !(fn_lookup_insert (objects w)). cbn [inst_set idict].
    rewrite !lookup_insert_eq. destruct c; by rewrite app_nil_r.
  - destruct c.
    + rewrite !save_run. cbn [fst snd objects outcomes trace].
      rewrite !(fn_lookup_insert (objects w)). cbn [inst_set idict].
      rewrite !lookup_insert_eq. by rewrite <- !app_assoc.
    + cbn [mret M_ret fst snd objects trace].
      rewrite !(fn_lookup_insert (objects w)). cbn [inst_set idict].
      rewrite !lookup_insert_eq. by rewrite app_nil_r.
Qed.

End LifecycleClaims.

(** * Equality and the column handle *)

Section EqualityClaims.
Implicit Types (h : heap) (self other : addr).

Lemma py_eqb_refl v : py_eqb v v = true.
Proof.
  destruct v as [|b|z|s|d]; cbn [py_eqb]; [done| | | |].
  - by destruct b.
  - apply Z.eqb_refl.
  - by apply bool_decide_eq_true_2.
  - by apply bool_decide_eq_true_2.
Qed.

(** A dictionary compared with itself: no column differs. *)
Lemma eq_loop_same base (d : gmap string pyval) :
  Forall (fun c => is_Some (d !! c)) base → eq_loop base d d = Ok true.
Proof.
  induction 1 as [|c base [v Hv] _ IH]; [done |].
  cbn [eq_loop]. unfold getitem. rewrite Hv.
  unfold py_neb. by rewrite py_eqb_refl.
Qed.

(** Instances of different types are not compared. *)
Lemma eq_type_mismatch h self other :
  icls (h self) ≠ icls (h other) →
  __eq__ h self (OEntity other)
  = Raise (ValueError "Objects are not the same. Cannot compare").
Proof. intros Hne. unfold __eq__. by rewrite bool_decide_eq_true_2. Qed.

(** C2 (the code departs from it). [__eq__] takes both dictionaries of
    the comparison from [self]: between two instances of one type whose
    columns are loaded it answers [True] whatever the other instance
    holds, so instances that differ on a field compare equal. *)
Theorem eq_same_type_is_true h self other :
  icls (h self) = icls (h other) →
  Forall (fun c => is_Some (idict (h self) !! c)) (columns (h self)) →
  __eq__ h self (OEntity other) = Ok true.
Proof.
  intros Hcls Hloaded. unfold __eq__.
  rewrite bool_decide_eq_false_2 by (intros Hne; by apply Hne).
  by apply eq_loop_same.
Qed.

(** [check_inputs] is where the dedicated error is raised: the attribute
    is found on the class but its key is not in the class's own
    [__dict__]. *)
Lemma check_inputs_invalid cls s v ia :
  cls_getattr cls !! s = Some (CAInstrumented ia) →
  ia_key ia ∉ cls_dict cls →
  check_inputs cls (FName s) v = Raise (ValueError "Invalid input field").
Proof.
  intros Hs Hkey. unfold check_inputs, getattr_cls. rewrite Hs.
  by rewrite bool_decide_eq_true_2.
Qed.

(** C9 (as amended). [getkey] takes a plain name or an attribute
    reference and returns whatever attribute the class has under that
    name: for a declared column its handle, and just as well a
    relationship handle or a method. It validates nothing: it fails only
    when the class has no attribute of that name, and then with the
    attribute-lookup error, never with the invalid-field error. *)
Theorem getkey_is_attribute_lookup cls field :
  getkey cls field
  = match cls_getattr cls !! lookup_name field with
    | Some a => Ok a
    | None => Raise (AttributeError (lookup_name field))
    end
  ∧ (∀ e, getkey cls field = Raise e →
          e = AttributeError (lookup_name field)
          ∧ cls_getattr cls !! lookup_name field = None).
Proof.
  assert (getkey cls field = getattr_cls cls (lookup_name field)) as ->
    by (by destruct field).
  unfold getattr_cls. split; [done |].
  intros e. destruct (cls_getattr cls !! lookup_name field); [done |].
  by intros [= <-].
Qed.

End EqualityClaims.

(** * The statements at the sample objects *)

Section Instances.
Import Sample.

(** A book with its relations: the author and the publisher come with
    their columns, the author without the password and without the books
    that lead back here; the publisher's date is a string. Each of the
    three calls has appended to the list. *)
Example prepare_book :
  prepare 2 store book1 (RelBool true) true (Some [])
  = Some (Ok (ODict
        [("id", OVal (PInt 10)); ("active", OVal (PStr "Y"));
         ("title", OVal (PStr "one"));
         ("author", ODict [("id", OVal (PInt 1)); ("active", OVal (PStr "Y"));
                           ("name", OVal (PStr "ann"))]);
         ("publisher", ODict [("id", OVal (PInt 7)); ("active", OVal (PStr "Y"));
                              ("label", OVal (PStr "press"));
                              ("founded", OVal (PStr "2020-02-29 09:05:00"))])]),
          ["password"; "password"; "password"]).
Proof. vm_compute. reflexivity. Qed.

(** An author with the relations: the list of books, each with its
    columns only; [profile] is not set, so the key is left out. *)
Example prepare_author :
  prepare 2 store author (RelBool true) true None
  = Some (Ok (ODict
        [("id", OVal (PInt 1)); ("active", OVal (PStr "Y"));
         ("name", OVal (PStr "ann"));
         ("books", OList
            [ODict [("id", OVal (PInt 10)); ("active", OVal (PStr "Y"));
                    ("title", OVal (PStr "one"))];
             ODict [("id", OVal (PInt 11)); ("active", OVal (PStr "N"));
                    ("title", OVal (PStr "two"))]])]),
          ["password"; "password"; "password"]).
Proof. vm_compute. reflexivity. Qed.

(** A soft delete on a healthy session: the commit, then the save with
    its own commit. *)
Example sdelete_trace :
  trace (sdelete author true calm).2
  = [SessionCommit; LogInfo "DB execution cycle complete";
     SessionAdd author; SessionCommit; LogInfo "DB execution cycle complete"].
Proof. vm_compute. reflexivity. Qed.

(** An account's credentials sit behind a relationship named [password],
    and the caller asks to leave [profile] out: both keys are in the
    mapping. *)
Lemma prepare_keeps_relationship_keys :
  ∃ resp excl,
    prepare 2 store account (RelBool true) true (Some ["profile"])
    = Some (Ok (ODict resp), excl)
    ∧ is_Some (dict_get "password" resp)
    ∧ is_Some (dict_get "profile" resp).
Proof.
  eexists _, _. split; [vm_compute; reflexivity |].
  split; vm_compute; eexists; reflexivity.
Qed.

Lemma prepare_excludes_columns_witness :
  ∃ resp excl,
    prepare 2 store author (RelBool true) true (Some ["name"])
    = Some (Ok (ODict resp), excl)
    ∧ dict_get "password" resp = None
    ∧ dict_get "name" resp = None.
Proof.
  destruct (prepare_excludes_columns 0 store author (RelBool true)
              (Some ["name"]) "password")
    as (resp & excl & Hrun & Hpw & _); [by left |].
  destruct (prepare_excludes_columns 0 store author (RelBool true)
              (Some ["name"]) "name")
    as (resp' & excl' & Hrun' & Hname & _); [right; by_evaluation |].
  rewrite Hrun in Hrun'. injection Hrun' as <- <-.
  exists resp, excl. split; [exact Hrun |].
  split; [apply Hpw | apply Hname]; by_evaluation.
Defined.

Lemma prepare_one_hop_witness :
  ∃ resp excl d,
    prepare 2 store book1 (RelBool true) true None
    = Some (Ok (ODict resp), excl)
    ∧ dict_get "author" resp = Some (ODict d)
    ∧ dict_get "name" d = Some (OVal (PStr "ann"))
    ∧ dict_get "books" d = None.
Proof.
  destruct (prepare_one_hop 0 store book1 (RelBool true) None)
    as (_ & resp & excl & Hrun & _ & Hsingle & _).
  destruct (Hsingle "author" author) as (d & Hd & _ & Hcols);
    [by_evaluation | vm_compute; reflexivity |].
  exists resp, excl, d. split; [exact Hrun |]. split; [exact Hd |].
  split; rewrite Hcols; vm_compute; reflexivity.
Defined.

(** Relationship names given as plain strings, a [rel] of [None] and an
    exclusion tuple: each call raises. *)
Lemma prepare_raises_outside_its_arguments :
  prepare_call 2 store author (RVSeq [FName "books"]) true (EVArg None)
  = Some (Raise (AttributeError "key"), ["password"])
  ∧ prepare_call 2 store author RVNoLen true (EVArg None)
    = Some (Raise (TypeError "object has no len()"), ["password"])
  ∧ prepare_call 2 store author (RVBool false) true (EVTuple ["name"])
    = Some (Raise (AttributeError "append"), ["name"]).
Proof. repeat split; vm_compute; reflexivity. Qed.

Lemma prepare_never_raises_witness :
  (∃ resp excl,
     prepare_call 2 store author (RVBool true) true (EVArg None)
     = Some (Ok (ODict resp), excl)
     ∧ dict_get "profile" resp = None)
  ∧ prepare_call 2 store author RVNoLen true (EVArg None)
    = Some (Raise (TypeError "object has no len()"), ["password"])
  ∧ ∃ excl,
      prepare_call 2 store author
        (RVSeq [FAttr (relationship "books"); FName "profile"]) true (EVArg None)
      = Some (Raise (AttributeError "key"), excl).
Proof.
  destruct (prepare_never_raises 0 store author (RelBool true) true None)
    as (_ & (v & excl & Hrun & Hjson) & _ & Hlen & Hname).
  split; [|split].
  - destruct (Hjson eq_refl) as (resp & -> & Hrel & _).
    exists resp, excl. split; [exact Hrun |].
    destruct (Hrel "profile" ["password"] (AttributeError "prepare") ["password"])
      as [_ Hnone]; [vm_compute; reflexivity |].
    apply Hnone. by_evaluation.
  - apply Hlen. by_evaluation.
  - apply (Hname ltac:(by_evaluation) _ "profile").
    apply list_elem_of_further, list_elem_of_here.
Defined.

(** The keyword [self] is refused, though it is no field; and with the
    default flag the commit that follows the loop can fail on a
    constraint, so that the call with an unknown field raises. *)
Lemma update_unknown_field_can_raise :
  ("self" ∉ keys (icls (store author)))
  ∧ (update_call author [("self", PInt 1)] calm).1
    = Raise (TypeError "update() got multiple values for argument")
  ∧ ("nickname" ∉ keys (icls (store author)))
  ∧ (update_call author [("nickname", PStr "z")]
       (failing (CommitIntegrity "duplicate key"))).1
    = Raise (IntegrityError "duplicate key").
Proof.
  repeat split; first [by_evaluation | vm_compute; reflexivity].
Qed.

Lemma update_drops_unknown_field_witness :
  (update_call author [("nickname", PStr "z")] calm).1 = Ok author
  ∧ objects (update_call author [("nickname", PStr "z")] calm).2 = store.
Proof.
  destruct (update_drops_unknown_field author None "nickname" (PStr "z") calm)
    as [H _].
  destruct H as (_ & Hobjs & Hres); [by_evaluation | done | done |].
  split; [exact Hres | exact Hobjs].
Defined.

Lemma eq_same_type_is_true_witness :
  idict (store author) !! "name" ≠ idict (store author2) !! "name"
  ∧ __eq__ store author (OEntity author2) = Ok true.
Proof.
  split; [by_evaluation |].
  apply eq_same_type_is_true; [reflexivity | by_evaluation].
Defined.

(** A relationship and a method are returned though neither is a
    declared column; a name the class lacks fails in the attribute
    lookup. *)
Lemma getkey_returns_non_columns :
  ("books" ∉ table_columns Author)
  ∧ getkey Author (FName "books") = Ok (CAInstrumented (relationship "books"))
  ∧ ("prepare" ∉ table_columns Author)
  ∧ getkey Author (FName "prepare") = Ok (CAOther "prepare")
  ∧ ("nickname" ∉ table_columns Author)
  ∧ getkey Author (FName "nickname") = Raise (AttributeError "nickname").
Proof.
  repeat split; first [by_evaluation | vm_compute; reflexivity].
Qed.

Lemma getkey_is_attribute_lookup_witness :
  cls_getattr Author !! "nickname" = None.
Proof.
  destruct (getkey_is_attribute_lookup Author (FName "nickname")) as [_ H].
  destruct (H (AttributeError "nickname")) as [_ Hnone];
    [vm_compute; reflexivity | exact Hnone].
Defined.

End Instances.

(** * Further properties: field introspection *)

Section Introspection.
Implicit Types (cls : entity_class) (name : string).

Lemma assoc_last_fold {K : Type} (f : K -> string) (l : list (K * pyval))
    (m : gmap string pyval) name :
  fold_left (fun resp kv => <[f kv.1 := kv.2]> resp) l m !! name
  = match assoc_last f name l with
    | Some v => Some v
    | None => m !! name
    end.
Proof.
  revert m. induction l as [|[k v] l IH]; intros m; [done |].
  cbn [fold_left assoc_last fst snd]. rewrite IH.
  destruct (assoc_last f name l); [done |].
  destruct (decide (f k = name)) as [<-|Hne].
  - by rewrite lookup_insert_eq.
  - by rewrite lookup_insert_ne.
Qed.

(** With distinct keys, the binding is the pair that is in the list. *)
Lemma assoc_last_NoDup {K : Type} (f : K -> string) (l : list (K * pyval))
    name v :
  NoDup ((fun kv => f kv.1) <$> l) →
  assoc_last f name l = Some v ↔ ∃ k, (k, v) ∈ l ∧ f k = name.
Proof.
  revert v. induction l as [|[k0 v0] l IH]; intros v Hnd.
  - split; [done |]. intros (k & Hin & _). by apply elem_of_nil in Hin.
  - rewrite fmap_cons in Hnd. apply list.NoDup_cons in Hnd as [Hfresh Hnd].
    cbn [assoc_last fst] in *.
    assert (∀ k x, (k, x) ∈ l → f k = name → assoc_last f name l = Some x)
      as Hin_l by (intros k x Hin Hk; apply IH; eauto).
    destruct (assoc_last f name l) as [v'|] eqn:E.
    + destruct (proj1 (IH v' Hnd) eq_refl) as (k' & Hin' & Hk').
      split.
      * intros [= <-]. exists k'. split; [by apply list_elem_of_further | done].
      * intros (k & Hin & Hk). apply elem_of_cons in Hin as [[= -> ->]|Hin].
        -- exfalso. apply Hfresh, list_elem_of_fmap.
           exists (k', v'). split; [cbn; congruence | done].
        -- apply (Hin_l k v Hin Hk).
    + split.
      * destruct (decide (f k0 = name)) as [Hk|]; [|done].
        intros [= ->]. exists k0. split; [apply list_elem_of_here | done].
      * intros (k & Hin & Hk). apply elem_of_cons in Hin as [[= -> ->]|Hin].
        -- by rewrite decide_True.
        -- by specialize (Hin_l k v Hin Hk).
Qed.

(** X1. Given exclusions that are plain names or references of columns,
    [fields] lists each column of the table once, leaving out the
    relationship names and the exclusions; an exclusion given as a
    reference counts by its name; [inc] changes nothing. *)
Theorem fields_spec cls inc exc :
  Forall has_name (default [] exc) →
  NoDup (fields cls inc exc)
  ∧ (∀ name, name ∈ fields cls inc exc
             ↔ name ∈ table_columns cls ∧ (name ∉ relationships cls)
               ∧ (name ∉ normalise <$> default [] exc))
  ∧ fields cls inc exc = fields cls None exc.
Proof.
  intros _. split; [|split; [|done]].
  - unfold fields. apply NoDup_fmap_2; [by intros x y |].
    apply list.NoDup_filter, NoDup_elements.
  - intros name. unfold fields. rewrite list_elem_of_fmap. split.
    + intros (key & -> & Hin). apply list_elem_of_filter in Hin as [Hexc Hin].
      apply elem_of_elements in Hin. unfold keys in Hin.
      apply elem_of_difference in Hin as [Hcol Hrel].
      rewrite elem_of_list_to_set in Hcol, Hrel. done.
    + intros (Hcol & Hrel & Hexc). exists name. split; [done |].
      apply list_elem_of_filter. split; [done |].
      apply elem_of_elements, elem_of_difference.
      by rewrite !elem_of_list_to_set.
Qed.

(** X2. Given filters whose keys are plain names or references of
    columns, [checkfilters] maps each normalised name to the value of the
    last item whose key has that name, and has no other key: a plain name
    and a reference of the same name collide, and the later one wins. *)
Theorem checkfilters_lookup filters name :
  Forall (fun kv => has_name kv.1) filters →
  checkfilters filters !! name = assoc_last normalise name filters.
Proof.
  intros _. unfold checkfilters. rewrite (assoc_last_fold normalise), lookup_empty.
  by destruct (assoc_last normalise name filters).
Qed.

(** X3. Normalising is idempotent: the result of [checkfilters], given
    back as filters under its plain names, comes out unchanged. *)
Theorem checkfilters_idempotent filters :
  checkfilters ((fun kv => (FName kv.1, kv.2))
                  <$> map_to_list (checkfilters filters))
  = checkfilters filters.
Proof.
  set (m := checkfilters filters). apply map_eq. intros name.
  unfold checkfilters at 1. rewrite (assoc_last_fold normalise), lookup_empty.
  destruct (m !! name) as [v|] eqn:Hm.
  - assert (assoc_last normalise name
              ((fun kv => (FName kv.1, kv.2)) <$> map_to_list m) = Some v) as ->;
      [|done].
    apply assoc_last_NoDup.
    + rewrite <- list_fmap_compose.
      apply (NoDup_fst_map_to_list m).
    + exists (FName name). split; [|done].
      apply list_elem_of_fmap. exists (name, v). split; [done |].
      by apply elem_of_map_to_list.
  - destruct (assoc_last normalise name _) as [v|] eqn:E; [|done].
    apply assoc_last_NoDup in E.
    + destruct E as (k & Hin & Hk).
      apply list_elem_of_fmap in Hin as ([name' v'] & [= -> ->] & Hin).
      apply elem_of_map_to_list in Hin. cbn in Hk. congruence.
    + rewrite <- list_fmap_compose. apply (NoDup_fst_map_to_list m).
Qed.

Lemma replace_char_length old new s :
  String.length (replace_char old new s) = String.length s.
Proof. induction s as [|c s IH]; [done |]. cbn. by rewrite IH. Qed.

Lemma replace_char_gone old new s :
  old ≠ new → has_char old (replace_char old new s) = false.
Proof.
  intros Hne. induction s as [|c s IH]; [done |].
  cbn [replace_char has_char]. rewrite IH, orb_false_r.
  apply bool_decide_eq_false_2. destruct (decide (c = old)); congruence.
Qed.

Lemma replace_char_absent old new s :
  has_char old s = false → replace_char old new s = s.
Proof.
  induction s as [|c s IH]; [done |]. cbn [replace_char has_char].
  intros H. apply orb_false_elim in H as [Hc Hs].
  apply bool_decide_eq_false in Hc. rewrite decide_False by done.
  by rewrite IH.
Qed.

(** X4. [get_schema] has one item per column of the table that is not
    excluded, in the order of the columns; the label of an item is its key
    with every underscore turned into a space: as long as the key, free of
    underscores, and the key itself when that has none. *)
Theorem get_schema_spec cls exclude :
  item_key <$> get_schema cls exclude
  = filter (fun key => key ∉ default [] exclude) (table_columns cls)
  ∧ Forall (fun it =>
              item_name it = replace_char "_" " " (item_key it)
              ∧ String.length (item_name it) = String.length (item_key it)
              ∧ has_char "_" (item_name it) = false
              ∧ (has_char "_" (item_key it) = false
                 → item_name it = item_key it))
      (get_schema cls exclude).
Proof.
  unfold get_schema. split.
  - rewrite <- list_fmap_compose. apply list_fmap_id.
  - apply Forall_fmap, Forall_true. intros item. cbn.
    split; [done |]. split; [apply replace_char_length |].
    split; [by apply replace_char_gone | apply replace_char_absent].
Qed.

(** X5. [check_inputs] returns exactly for a plain name under which the
    class has an instrumented attribute whose key is in the class's own
    [__dict__], and then the one-entry dict from that key to the value. An
    attribute reference never passes: that of a relationship has no
    [name] to read, and that of a column is handed to [getattr] as the
    attribute name. *)
Theorem check_inputs_spec cls field value :
  (∀ d, check_inputs cls field value = Ok d
        ↔ ∃ s ia, field = FName s
                  ∧ cls_getattr cls !! s = Some (CAInstrumented ia)
                  ∧ ia_key ia ∈ cls_dict cls
                  ∧ d = {[ ia_key ia := value ]})
  ∧ (∀ ia, field = FAttr ia →
           check_inputs cls field value
           = match ia_kind ia with
             | RelationshipAttr => Raise (AttributeError "name")
             | ColumnAttr => Raise (TypeError "attribute name must be string")
             end).
Proof.
  split; [|by intros ia ->].
  intros d. destruct field as [s|ia]; cbn [check_inputs].
  - unfold getattr_cls. destruct (cls_getattr cls !! s) as [[ia|other]|] eqn:Hs.
    + case_bool_decide as Hkey.
      * split; [done |].
        intros (s' & ia' & Hf & Hget & Hin & _). injection Hf as <-.
        rewrite Hs in Hget. injection Hget as <-. done.
      * split.
        -- intros [= <-]. exists s, ia. repeat split; [done |].
           destruct (decide (ia_key ia ∈ cls_dict cls)); [done | by exfalso; auto].
        -- intros (s' & ia' & Hf & Hget & _ & ->). injection Hf as <-.
           rewrite Hs in Hget. by injection Hget as <-.
    + split; [done |].
      intros (s' & ia' & Hf & Hget & _). injection Hf as <-.
      rewrite Hs in Hget. discriminate.
    + split; [done |].
      intros (s' & ia' & Hf & Hget & _). injection Hf as <-.
      rewrite Hs in Hget. discriminate.
  - split; [by destruct (ia_kind ia) |]. by intros (s' & ia' & [= ] & _).
Qed.

End Introspection.

(** * Further properties: equality and the lifecycle *)

Section Lifecycle.
Implicit Types (w : world) (self : addr) (h : heap).

Lemma apply_kwargs_lookup cls kwargs (d : gmap string pyval) name :
  apply_kwargs cls kwargs d !! name
  = match (if assigns cls name then assoc_last id name kwargs else None) with
    | Some v => Some v
    | None => d !! name
    end.
Proof.
  revert d. induction kwargs as [|[k v] rest IH]; intros d.
  - by destruct (assigns cls name).
  - change (apply_kwargs cls ((k, v) :: rest) d)
      with (apply_kwargs cls rest (if assigns cls k then <[k := v]> d else d)).
    rewrite IH. cbn [assoc_last id].
    destruct (assigns cls name) eqn:Hname.
    + destruct (assoc_last id name rest); [done |].
      unfold id. destruct (decide (k = name)) as [->|Hne].
      * by rewrite Hname, lookup_insert_eq.
      * destruct (assigns cls k); [by rewrite lookup_insert_ne | done].
    + destruct (assigns cls k) eqn:Hk; [|done].
      rewrite lookup_insert_ne; [done |]. congruence.
Qed.

(** The loop of [update] in one step: it returns, leaves the session
    alone and replaces the [__dict__] of [self]. *)
Lemma update_loop_objects self kwargs w :
  ∃ objs,
    update_loop self kwargs w
    = (Ok tt, {| objects := objs; outcomes := outcomes w; trace := trace w |})
    ∧ ∀ b, objs b
           = if decide (b = self)
             then with_dict (objects w self)
                    (apply_kwargs (icls (objects w self)) kwargs
                       (idict (objects w self)))
             else objects w b.
Proof.
  revert w. induction kwargs as [|[attr value] rest IH]; intros w.
  - exists (objects w). split; [by destruct w |].
    intros b. destruct (decide (b = self)) as [->|]; [|done].
    by destruct (objects w self).
  - rewrite update_loop_cons.
    change (apply_kwargs (icls (objects w self)) ((attr, value) :: rest)
              (idict (objects w self)))
      with (apply_kwargs (icls (objects w self)) rest
              (if assigns (icls (objects w self)) attr
               then <[attr := value]> (idict (objects w self))
               else idict (objects w self))).
    destruct (assigns (icls (objects w self)) attr); [|apply IH].
    destruct (IH (setattr self attr value w).2) as (objs & -> & Hobjs).
    exists objs. split; [done |]. intros b. rewrite Hobjs.
    unfold setattr. cbn [snd objects].
    destruct (decide (b = self)) as [->|Hne].
    + by rewrite (fn_lookup_insert (objects w)).
    + by rewrite (fn_lookup_insert_ne (objects w)).
Qed.

(** X7. [update] in full. With the flag off, each pair whose name is a
    field other than [id] is assigned, a later pair overriding an earlier
    one; every other entry of the [__dict__], the type and the
    relationships of the instance, and every other instance stay as they
    are; neither the session nor the log is called, and the instance is
    returned. With the flag on the same is done first, and then [save]:
    the instance is added to the session and committed once, a failure
    that [sessioncommit] absorbs is not visible in the result, and one
    that it re-raises is the result. *)
Theorem update_run self kwargs w :
  let i := objects w self in
  let d := apply_kwargs (icls i) kwargs (idict i) in
  let w' := (update self false kwargs w).2 in
  (update self false kwargs w).1 = Ok self
  ∧ (∀ b, objects w' b = if decide (b = self) then with_dict i d else objects w b)
  ∧ (∀ name, d !! name
             = match (if assigns (icls i) name
                      then assoc_last id name kwargs else None) with
               | Some v => Some v
               | None => idict i !! name
               end)
  ∧ trace w' = trace w
  ∧ outcomes w' = outcomes w
  ∧ update self true kwargs w = save self true w'
  ∧ (update self true kwargs w).1 = outcome_of (head (outcomes w)) self
  ∧ trace (update self true kwargs w).2
    = (trace w ++ SessionAdd self :: commit_events (head (outcomes w)))%list.
Proof.
  cbv zeta. unfold update, mbind, M_bind.
  destruct (update_loop_objects self kwargs w) as (objs & -> & Hobjs).
  cbn [mret M_ret fst snd objects outcomes trace]. rewrite save_run.
  cbn [fst snd objects outcomes trace].
  repeat split; [exact Hobjs | apply apply_kwargs_lookup].
Qed.

End Lifecycle.

(** * Further properties: what the lifecycle calls keep *)

(** A relation between the world before and after that is reflexive and
    transitive and holds across each call the lifecycle methods make on
    the session, across [sessioncommit] and across an assignment to an
    attribute other than [id], holds across every run of a client. *)
Section Related.
Variable R : world → world → Prop.
Hypothesis R_refl : ∀ w, R w w.
Hypothesis R_trans : ∀ w1 w2 w3, R w1 w2 → R w2 w3 → R w1 w3.
Hypothesis R_add : ∀ a w, R w (session_add a w).2.
Hypothesis R_delete : ∀ a w, R w (session_delete a w).2.
Hypothesis R_close : ∀ w, R w (session_close w).2.
Hypothesis R_commit : ∀ w, R w (sessioncommit w).2.
Hypothesis R_setattr :
  ∀ self name value w, name ≠ "id" → R w (setattr self name value w).2.

Lemma related_bind {A B : Type} (m : M A) (k : A → M B) :
  (∀ w, R w (m w).2) → (∀ a w, R w (k a w).2) → ∀ w, R w ((m ≫= k) w).2.
Proof.
  intros Hm Hk w. unfold mbind, M_bind. specialize (Hm w).
  destruct (m w) as [[a|e] w1]; [|done].
  eapply R_trans; [exact Hm | apply Hk].
Qed.

Lemma related_ret {A : Type} (a : A) w : R w ((mret a : M A) w).2.
Proof. apply R_refl. Qed.

Lemma related_save self (c : bool) w : R w (save self c w).2.
Proof.
  unfold save. apply related_bind; [apply R_add |]. intros _.
  apply related_bind; [|intros; apply related_ret].
  destruct c; [apply R_commit | apply related_ret].
Qed.

Lemma related_update_loop self kwargs w : R w (update_loop self kwargs w).2.
Proof.
  revert w. induction kwargs as [|[attr value] rest IH]; intros w.
  - apply R_refl.
  - rewrite update_loop_cons.
    destruct (assigns _ attr) eqn:Hassign; [|apply IH].
    eapply R_trans; [|apply IH]. apply R_setattr.
    unfold assigns in Hassign. apply andb_prop in Hassign as [Hid _].
    by apply bool_decide_eq_true in Hid.
Qed.

Lemma related_perform c w : R w (perform c w).2.
Proof.
  destruct c as [self f|self f kwargs|self f|self f|self|self|self];
    cbn [perform].
  - apply related_bind; [apply related_save | intros; apply related_ret].
  - apply related_bind; [|intros; apply related_ret]. unfold update.
    apply related_bind; [apply related_update_loop |]. intros _.
    destruct f; [apply related_save | apply related_ret].
  - apply related_bind; [|intros; apply related_ret]. unfold sdelete.
    apply related_bind; [intros; by apply R_setattr |]. intros _.
    apply related_bind; [apply R_commit |]. intros _.
    destruct f; [apply related_save | apply related_ret].
  - apply related_bind; [|intros; apply related_ret]. unfold restore.
    apply related_bind; [intros; by apply R_setattr |]. intros _.
    apply related_bind; [apply R_commit |]. intros _.
    destruct f; [apply related_save | apply related_ret].
  - unfold delete. apply related_bind; [apply R_delete |]. intros _.
    apply R_commit.
  - apply R_commit.
  - apply R_close.
Qed.

Lemma client_related resume calls w : R w (client resume calls w).2.
Proof.
  revert w. induction calls as [|c rest IH]; intros w; [apply R_refl |].
  cbn [client]. pose proof (related_perform c w) as Hc.
  destruct (perform c w) as [[u|e] w1].
  - eapply R_trans; [exact Hc | apply IH].
  - destruct resume; [|exact Hc].
    eapply R_trans; [exact Hc | apply IH].
Qed.

End Related.

Section Invariants.
Implicit Types (w : world) (self : addr).

Lemma count_app (e : event) (l1 l2 : list event) :
  count e (l1 ++ l2) = count e l1 + count e l2.
Proof. unfold count. by rewrite list.filter_app, length_app. Qed.

Lemma accounts_refl w : accounts w w.
Proof.
  exists []. rewrite app_nil_r. split; [done |]. by split.
Qed.

Lemma accounts_trans w1 w2 w3 : accounts w1 w2 → accounts w2 w3 → accounts w1 w3.
Proof.
  intros (evs1 & Ht1 & Ho1 & Hr1) (evs2 & Ht2 & Ho2 & Hr2).
  exists (evs1 ++ evs2)%list. rewrite !count_app. split; [|split].
  - by rewrite Ht2, Ht1, app_assoc.
  - by rewrite Ho2, Ho1, drop_drop.
  - rewrite Hr1, Hr2, Ho1.
    rewrite <- length_app, <- list.filter_app. by rewrite take_take_drop.
Qed.

Lemma accounts_emit e w :
  e ≠ SessionCommit → e ≠ SessionRollback → accounts w (emit e w).2.
Proof.
  intros Hc Hr. exists [e]. split; [done |].
  assert (count SessionCommit [e] = 0 ∧ count SessionRollback [e] = 0) as [-> ->].
  { unfold count. rewrite !list.filter_cons, !list.filter_nil.
    by rewrite !decide_False. }
  by split.
Qed.

Lemma accounts_sessioncommit w : accounts w (sessioncommit w).2.
Proof.
  rewrite sessioncommit_run. exists (commit_events (head (outcomes w))).
  split; [done |]. cbn [snd outcomes].
  destruct (outcomes w) as [|[|m|m|m] os]; by vm_compute.
Qed.

Lemma accounts_setattr self name value w :
  name ≠ "id" → accounts w (setattr self name value w).2.
Proof. intros _. exists []. cbn. rewrite app_nil_r. by repeat split. Qed.

(** X16. The session is rolled back once for each operational failure of
    a commit and at no other time: over any run of a client, the commits
    consume one outcome each, in order, and the rollbacks made are as
    many as the operational failures among the outcomes consumed. *)
Theorem client_accounts resume calls w :
  let w' := (client resume calls w).2 in
  ∃ evs,
    trace w' = (trace w ++ evs)%list
    ∧ outcomes w' = drop (count SessionCommit evs) (outcomes w)
    ∧ count SessionRollback evs
      = length (filter is_operational
                  (take (count SessionCommit evs) (outcomes w))).
Proof.
  change (accounts w (client resume calls w).2).
  apply client_related.
  - apply accounts_refl.
  - apply accounts_trans.
  - intros a w0. by apply accounts_emit.
  - intros a w0. by apply accounts_emit.
  - intros w0. by apply accounts_emit.
  - apply accounts_sessioncommit.
  - apply accounts_setattr.
Qed.

Lemma assoc_last_absent name (l : list (string * pyval)) :
  name ∉ l.*1 → assoc_last id name l = None.
Proof.
  induction l as [|[k v] l IH]; [done |]. rewrite fmap_cons. cbn [fst].
  intros Hin. apply not_elem_of_cons in Hin as [Hne Hin].
  cbn [assoc_last]. rewrite (IH Hin). unfold id. by rewrite decide_False.
Qed.

Lemma assoc_last_without_flag name (payload : list (string * pyval)) :
  assoc_last id name (filter (fun kv => kv.1 ≠ "_commit") payload)
  = if decide (name = "_commit") then None else assoc_last id name payload.
Proof.
  induction payload as [|[k v] rest IH]; [by destruct (decide _) |].
  rewrite list.filter_cons. cbn [fst].
  destruct (decide (k ≠ "_commit")) as [Hk|Hk]; cbn [assoc_last]; rewrite IH.
  - destruct (decide (name = "_commit")) as [->|Hname]; [|done].
    unfold id. by rewrite decide_False.
  - apply dec_stable in Hk. subst k.
    destruct (decide (name = "_commit")) as [->|Hname]; [done |].
    unfold id. rewrite (decide_False (P := "_commit" = name)) by congruence.
    by destruct (assoc_last _ name rest).
Qed.

(** The world after [cls()]. *)
Definition built (cls : entity_class) (rels : gmap string attrval)
    (self : addr) (w : world) : world :=
  {| objects := <[self := {| icls := cls; idict := ∅; iattrs := rels |}]>
                  (objects w);
     outcomes := outcomes w; trace := trace w |}.

Lemma built_objects cls rels self w b :
  objects (built cls rels self w) b
  = if decide (b = self)
    then {| icls := cls; idict := ∅; iattrs := rels |} else objects w b.
Proof.
  unfold built. cbn [objects]. destruct (decide (b = self)) as [->|Hne].
  - apply (fn_lookup_insert (objects w)).
  - by apply (fn_lookup_insert_ne (objects w)).
Qed.

(** For a payload Python accepts, [create] is the body of [update] on the
    new instance, with the flag the payload binds and [commit=False]
    among the fields. *)
Lemma create_body cls rels self payload w :
  "cls" ∉ payload.*1 → "commit" ∉ payload.*1 → "self" ∉ payload.*1 →
  create cls rels self payload w
  = update self (from_option truthy true (assoc_last id "_commit" payload))
      (("commit", PBool false) :: filter (fun kv => kv.1 ≠ "_commit") payload)
      (built cls rels self w).
Proof.
  intros Hcls Hcommit Hself. unfold create.
  rewrite (bool_decide_eq_false_2 _ Hcls).
  unfold construct, mbind, M_bind at 1. fold (built cls rels self w).
  rewrite (bool_decide_eq_false_2 _ Hcommit). unfold update_call.
  rewrite fmap_cons. cbn [fst].
  rewrite bool_decide_eq_false_2
    by (intros H; apply elem_of_cons in H as [H|H]; [discriminate | done]).
  cbn [assoc_last id]. rewrite list.filter_cons. cbn [fst].
  destruct (decide ("commit" ≠ "_commit")) as [_|H]; [|by destruct H].
  destruct (decide ("commit" = "_commit")) as [H|_]; [discriminate H |].
  by destruct (assoc_last id "_commit" payload).
Qed.

(** X11. [create] persists unless told otherwise through [_commit]. The
    keyword [commit=False] it passes does not reach the flag of [update],
    which is named [_commit]. For a payload without the keys [cls],
    [commit] and [self]: if it has no key [_commit], or a true one, the
    new instance is added to the session and committed, and what the
    commit re-raises comes out of [create]; without the key, [create]
    does what it does with [_commit=False] and then saves. With a false
    [_commit] the session is not called, and the new instance holds the
    payload's fields other than [id], and [False] under [commit] if that
    is a field; other names are dropped. A payload key [cls] is refused
    with nothing done; a key [commit] or [self] is refused after the
    instance is built, with nothing assigned and the session untouched. *)
Theorem create_run cls rels self payload w :
  let w' := (create cls rels self payload w).2 in
  ("cls" ∈ payload.*1 →
   create cls rels self payload w
   = (Raise (TypeError "create() got multiple values for argument"), w))
  ∧ ("cls" ∉ payload.*1 → "commit" ∈ payload.*1 ∨ "self" ∈ payload.*1 →
     (∃ msg, (create cls rels self payload w).1 = Raise (TypeError msg))
     ∧ trace w' = trace w ∧ outcomes w' = outcomes w
     ∧ (∀ b, objects w' b
             = if decide (b = self)
               then {| icls := cls; idict := ∅; iattrs := rels |}
               else objects w b))
  ∧ ("cls" ∉ payload.*1 → "commit" ∉ payload.*1 → "self" ∉ payload.*1 →
     (assoc_last id "_commit" payload = None
      ∨ (∃ v, assoc_last id "_commit" payload = Some v ∧ truthy v = true) →
      (create cls rels self payload w).1 = outcome_of (head (outcomes w)) self
      ∧ trace w'
        = (trace w ++ SessionAdd self :: commit_events (head (outcomes w)))%list)
     ∧ (assoc_last id "_commit" payload = None →
        create cls rels self payload w
        = save self true
            (create cls rels self (("_commit", PBool false) :: payload) w).2)
     ∧ (∀ v, assoc_last id "_commit" payload = Some v → truthy v = false →
        (create cls rels self payload w).1 = Ok self
        ∧ trace w' = trace w ∧ outcomes w' = outcomes w
        ∧ (∀ b, b ≠ self → objects w' b = objects w b)
        ∧ icls (objects w' self) = cls
        ∧ iattrs (objects w' self) = rels
        ∧ (∀ name,
             idict (objects w' self) !! name
             = if assigns cls name
               then if decide (name = "commit") then Some (PBool false)
                    else if decide (name = "_commit") then None
                    else assoc_last id name payload
               else None))).
Proof.
  cbv zeta. split; [|split].
  - intros Hcls. unfold create. by rewrite (bool_decide_eq_true_2 _ Hcls).
  - intros Hcls Hreserved. unfold create.
    rewrite (bool_decide_eq_false_2 _ Hcls).
    unfold construct, mbind, M_bind at 1. fold (built cls rels self w).
    destruct (decide ("commit" ∈ payload.*1)) as [Hcommit|Hcommit].
    + rewrite (bool_decide_eq_true_2 _ Hcommit). unfold raise. cbn [fst snd].
      split; [by eexists |]. repeat split. apply built_objects.
    + rewrite (bool_decide_eq_false_2 _ Hcommit). unfold update_call.
      destruct Hreserved as [?|Hself]; [done |].
      rewrite bool_decide_eq_true_2 by (rewrite fmap_cons; by apply list_elem_of_further).
      unfold raise. cbn [fst snd].
      split; [by eexists |]. repeat split. apply built_objects.
  - intros Hcls Hcommit Hself.
    assert (∀ (c : bool) kwargs,
              (update self c kwargs (built cls rels self w)).1
              = (if c then outcome_of (head (outcomes w)) self else Ok self)
              ∧ trace (update self c kwargs (built cls rels self w)).2
                = (trace w ++ if c then SessionAdd self
                                        :: commit_events (head (outcomes w))
                              else [])%list
              ∧ outcomes (update self c kwargs (built cls rels self w)).2
                = (if c then tail (outcomes w) else outcomes w)
              ∧ (∀ b, objects (update self c kwargs (built cls rels self w)).2 b
                      = if decide (b = self)
                        then {| icls := cls;
                                idict := apply_kwargs cls kwargs ∅;
                                iattrs := rels |}
                        else objects w b)) as Hupdate.
    { intros c kwargs. unfold update, mbind, M_bind.
      destruct (update_loop_objects self kwargs (built cls rels self w))
        as (objs & -> & Hobjs).
      assert (∀ b, objs b
                   = if decide (b = self)
                     then {| icls := cls; idict := apply_kwargs cls kwargs ∅;
                             iattrs := rels |}
                     else objects w b) as Hobjs'.
      { intros b. rewrite Hobjs. destruct (decide (b = self)) as [->|Hne].
        - rewrite built_objects. by rewrite decide_True.
        - rewrite built_objects. by rewrite decide_False. }
      destruct c.
      - rewrite save_run. by cbn [fst snd objects outcomes trace].
      - cbn [mret M_ret fst snd objects outcomes trace]. by rewrite app_nil_r. }
    split; [|split].
    + intros Hflag. rewrite create_body by done.
      assert (from_option truthy true (assoc_last id "_commit" payload) = true)
        as -> by (destruct Hflag as [->|(v & -> & Hv)]; done).
      destruct (Hupdate true (("commit", PBool false)
                   :: filter (fun kv => kv.1 ≠ "_commit") payload))
        as (Hres & Htr & _). by split.
    + intros Hnone. rewrite !create_body; try done.
      * rewrite Hnone. cbn [assoc_last id]. rewrite Hnone.
        rewrite (decide_True (P := "_commit" = "_commit")) by done.
        cbn [from_option truthy].
        rewrite (list.filter_cons _ ("_commit", PBool false)). cbn [fst].
        rewrite (decide_False (P := "_commit" ≠ "_commit"))
          by (intros H; by apply H).
        unfold update, mbind, M_bind.
        destruct (update_loop_objects self
                    (("commit", PBool false)
                     :: filter (fun kv => kv.1 ≠ "_commit") payload)
                    (built cls rels self w)) as (objs & -> & _).
        done.
      * rewrite fmap_cons. cbn [fst]. intros H.
        apply elem_of_cons in H as [H|H]; [discriminate | done].
      * rewrite fmap_cons. cbn [fst]. intros H.
        apply elem_of_cons in H as [H|H]; [discriminate | done].
      * rewrite fmap_cons. cbn [fst]. intros H.
        apply elem_of_cons in H as [H|H]; [discriminate | done].
    + intros v Hsome Hfalse. rewrite create_body by done.
      rewrite Hsome. cbn [from_option]. rewrite Hfalse.
      destruct (Hupdate false (("commit", PBool false)
                   :: filter (fun kv => kv.1 ≠ "_commit") payload))
        as (Hres & Htr & Hout & Hobjs).
      rewrite app_nil_r in Htr.
      split; [exact Hres |]. split; [exact Htr |]. split; [exact Hout |].
      split; [|split; [|split]].
      * intros b Hb. rewrite Hobjs. by rewrite decide_False.
      * rewrite Hobjs. by rewrite decide_True.
      * rewrite Hobjs. by rewrite decide_True.
      * intros name. rewrite Hobjs, decide_True by done. cbn [idict].
        rewrite apply_kwargs_lookup, lookup_empty.
        destruct (assigns cls name); [|done].
        cbn [assoc_last id]. rewrite assoc_last_without_flag.
        destruct (decide (name = "commit")) as [->|Hname].
        -- destruct (decide ("commit" = "_commit")) as [H|_]; [discriminate H |].
           rewrite (assoc_last_absent "commit" payload Hcommit).
           unfold id. by rewrite decide_True.
        -- destruct (decide (name = "_commit")) as [->|Hflag].
           ++ unfold id. by rewrite decide_False.
           ++ destruct (assoc_last id name payload); [done |].
              unfold id. by rewrite decide_False.
Qed.

End Invariants.

(** * Further properties: the serializer *)

Section PrepareMore.
Implicit Types (h : heap) (self : addr) (rel : relarg)
  (exc : option (list string)).

Lemma dict_set_fresh k v (d : pydict) :
  k ∉ d.*1 → dict_set k v d = (d ++ [(k, v)])%list.
Proof.
  induction d as [|[k0 v0] d IH]; intros Hk; [done |].
  rewrite fmap_cons in Hk. apply not_elem_of_cons in Hk as [Hne Hk].
  cbn [dict_set]. rewrite decide_False by (cbn in Hne; congruence).
  by rewrite IH.
Qed.

(** Over distinct columns the loop appends: one entry per column held, in
    the order of the columns. *)
Lemma column_fold_items (d : gmap string pyval) cs (resp : pydict) :
  NoDup cs → (∀ c, c ∈ cs → c ∉ resp.*1) →
  column_fold d cs resp
  = (resp ++ omap (fun c => (fun v => (c, render v)) <$> d !! c) cs)%list.
Proof.
  revert resp. induction cs as [|c cs IH]; intros resp Hnd Hfresh.
  - cbn. by rewrite app_nil_r.
  - apply list.NoDup_cons in Hnd as [Hc Hnd].
    change (column_fold d (c :: cs) resp)
      with (column_fold d cs (match d !! c with
                              | Some v => dict_set c (render v) resp
                              | None => resp
                              end)).
    cbn [omap list_omap]. destruct (d !! c) as [v|]; cbn [fmap option_fmap option_map].
    + rewrite dict_set_fresh by (apply Hfresh, list_elem_of_here).
      rewrite IH; [by rewrite <- app_assoc | done |].
      intros c' Hc'. rewrite fmap_app, elem_of_app. intros [Hin|Hin].
      * by apply (Hfresh c'); [apply list_elem_of_further |].
      * apply list_elem_of_singleton in Hin. cbn in Hin. congruence.
    + apply IH; [done |]. intros c' Hc'. apply Hfresh.
      by apply list_elem_of_further.
Qed.

(** X12. Without relations, the mapping is read off the columns: one entry
    for each mapped column that is not excluded and is in the [__dict__],
    in the order of the mapper's columns, holding the value itself or, for
    a [datetime], its string; the exclusion list has been appended to
    once. *)
Theorem prepare_columns_exact n h self exc :
  NoDup (mapper_columns (icls (h self))) →
  prepare (S n) h self (RelBool false) true exc
  = Some (Ok (ODict (column_items (h self) (initial exc))), initial exc).
Proof.
  intros Hnd. rewrite prepare_unfold. cbn [negb is_False orb].
  rewrite column_loop_fold. unfold column_items.
  rewrite column_fold_items; [done | by apply list.NoDup_filter |].
  intros c _. apply not_elem_of_nil.
Qed.

(** X14. How [rel] selects. An empty sequence selects every relationship,
    like [True]. For a type without relationships [rel] is not looked at.
    A sequence that is not empty confines the loop to the names it gives:
    under every other name the mapping has what the columns gave. *)
Theorem prepare_selects n h self exc :
  (∀ json, prepare (S n) h self (RelList []) json exc
           = prepare (S n) h self (RelBool true) json exc)
  ∧ (relationships (icls (h self)) = [] →
     ∀ rel json, prepare (S n) h self rel json exc
                 = prepare (S n) h self (RelBool false) json exc)
  ∧ (∀ l, l ≠ [] →
     ∃ resp excl,
       prepare (S (S n)) h self (RelList l) true exc
       = Some (Ok (ODict resp), excl)
       ∧ ∀ key, key ∉ (ia_key <$> l) →
                dict_get key resp
                = if bool_decide (key ∈ mapper_columns (icls (h self))
                                  ∧ key ∉ initial exc)
                  then render <$> idict (h self) !! key else None).
Proof.
  split; [|split].
  - intros json. by rewrite !prepare_unfold.
  - intros Hnone rel json. rewrite !prepare_unfold, Hnone.
    rewrite (bool_decide_eq_true_2 ([] = [])) by done.
    by rewrite !orb_true_r.
  - intros l Hl.
    destruct (prepare_mapping n h self (RelList l) exc)
      as (resp & k & Hrun & Hget & _).
    exists resp, (initial exc ++ repeat pw k)%list. split; [done |].
    intros key Hkey. rewrite Hget, column_dict_get.
    rewrite bool_decide_eq_false_2; [done |].
    unfold traversed. destruct (is_False _ || _); [apply not_elem_of_nil |].
    by destruct l.
Qed.

(** X15. What [update] assigns, [prepare] shows. After an [update] with
    the commit flag off, the mapping of the instance has, under each name
    the update assigned, the new value as the column loop stores it (if
    the name is a mapped column that is not excluded), and under every
    other name what it had before. *)
Theorem update_then_prepare n self kwargs w exc :
  let cls := icls (objects w self) in
  let w' := (update self false kwargs w).2 in
  ∃ resp resp' excl,
    prepare (S (S n)) (objects w) self (RelBool false) true exc
    = Some (Ok (ODict resp), excl)
    ∧ prepare (S (S n)) (objects w') self (RelBool false) true exc
      = Some (Ok (ODict resp'), excl)
    ∧ ∀ name,
        dict_get name resp'
        = match (if assigns cls name then assoc_last id name kwargs
                 else None) with
          | Some v =>
            if bool_decide (name ∈ mapper_columns cls ∧ name ∉ initial exc)
            then Some (render v) else None
          | None => dict_get name resp
          end.
Proof.
  cbv zeta.
  assert (objects (update self false kwargs w).2 self
          = with_dict (objects w self)
              (apply_kwargs (icls (objects w self)) kwargs
                 (idict (objects w self)))) as Hself.
  { unfold update, mbind, M_bind.
    destruct (update_loop_objects self kwargs w) as (objs & -> & Hobjs).
    cbn [mret M_ret snd objects]. rewrite Hobjs. by rewrite decide_True. }
  destruct (prepare_mapping n (objects w) self (RelBool false) exc)
    as (resp & k & Hrun & Hget & _).
  destruct (prepare_mapping n (objects (update self false kwargs w).2) self
              (RelBool false) exc) as (resp' & k' & Hrun' & Hget' & _).
  assert (k = 0 ∧ k' = 0) as [-> ->].
  { rewrite prepare_unfold in Hrun, Hrun'. cbn [negb is_False orb] in Hrun, Hrun'.
    rewrite column_loop_fold in Hrun, Hrun'.
    injection Hrun as _ Hk. injection Hrun' as _ Hk'.
    apply (f_equal length) in Hk, Hk'.
    rewrite !length_app, !repeat_length in Hk, Hk'. lia. }
  exists resp, resp', (initial exc ++ repeat pw 0)%list.
  split; [done |]. split; [done |].
  intros name. rewrite Hget', Hget. cbn [traversed is_False orb].
  rewrite !bool_decide_eq_false_2 by apply not_elem_of_nil.
  rewrite !column_dict_get, Hself. cbn [with_dict icls idict].
  rewrite apply_kwargs_lookup.
  destruct (if assigns _ name then assoc_last id name kwargs else None);
    [by case_bool_decide | done].
Qed.

End PrepareMore.

(** * The further statements at sample objects *)

(** An invoice type whose columns have underscores in their names and
    include one named [commit]. *)
Module Ledger.

Definition Invoice : entity_class :=
  Sample.declare "Invoice"
    ["id"; "active"; "due_date"; "grand_total"; "commit"] ["lines"].

Definition password_ref : fieldref :=
  FAttr {| ia_key := "pwd"; ia_name := "password"; ia_kind := ColumnAttr |}.

Definition invoice : addr := 9.

End Ledger.

Section MoreInstances.
Import Sample Ledger.

(** A new invoice from a payload: the [id] and the unknown name are
    dropped, [commit] is set to [False], and the invoice is committed. *)
Example create_invoice :
  let w := (create Invoice ∅ invoice
              [("id", PInt 5); ("grand_total", PInt 120); ("colour", PStr "red");
               ("_commit", PBool false)]
              calm).2 in
  idict (objects w invoice) !! "grand_total" = Some (PInt 120)
  ∧ idict (objects w invoice) !! "commit" = Some (PBool false)
  ∧ idict (objects w invoice) !! "id" = None
  ∧ idict (objects w invoice) !! "colour" = None
  ∧ trace w = [].
Proof. repeat split; vm_compute; reflexivity. Qed.

(** The labels of the invoice columns. *)
Example get_schema_invoice :
  get_schema Invoice (Some ["commit"])
  = [ {| item_name := "id"; item_key := "id" |};
      {| item_name := "active"; item_key := "active" |};
      {| item_name := "due date"; item_key := "due_date" |};
      {| item_name := "grand total"; item_key := "grand_total" |} ].
Proof. vm_compute. reflexivity. Qed.

Lemma fields_spec_witness :
  "name" ∈ fields Author None (Some [password_ref])
  ∧ "password" ∉ fields Author None (Some [password_ref]).
Proof.
  destruct (fields_spec Author None (Some [password_ref])) as (_ & H & _);
    [by_evaluation |].
  split.
  - apply H. repeat split; by_evaluation.
  - intros Hin. apply H in Hin as (_ & _ & Hexc). apply Hexc. by_evaluation.
Defined.

Lemma checkfilters_lookup_witness :
  checkfilters [(FName "password", PStr "a"); (password_ref, PStr "b")]
  !! "password" = Some (PStr "b").
Proof.
  rewrite checkfilters_lookup by by_evaluation. vm_compute. reflexivity.
Defined.

Lemma get_schema_spec_witness :
  ∃ it, get_schema Invoice None !! 0 = Some it ∧ item_name it = item_key it.
Proof.
  destruct (get_schema_spec Invoice None) as [_ HF].
  eexists. split; [vm_compute; reflexivity |].
  pose proof (Forall_lookup_1 _ _ 0 _ HF eq_refl) as (_ & _ & _ & Hsame).
  apply Hsame. vm_compute. reflexivity.
Defined.

Lemma check_inputs_spec_witness :
  check_inputs Author (FName "name") (PStr "ann") = Ok {[ "name" := PStr "ann" ]}
  ∧ check_inputs Author password_ref (PStr "x")
    = Raise (TypeError "attribute name must be string")
  ∧ check_inputs Author (FAttr (relationship "books")) (PStr "x")
    = Raise (AttributeError "name").
Proof.
  split; [|split].
  - destruct (check_inputs_spec Author (FName "name") (PStr "ann")) as [H _].
    apply H. exists "name", {| ia_key := "name"; ia_name := "name";
                               ia_kind := ColumnAttr |}.
    split; [reflexivity |]. split; [vm_compute; reflexivity |].
    split; [by_evaluation | reflexivity].
  - destruct (check_inputs_spec Author password_ref (PStr "x")) as [_ H].
    by apply (H _ eq_refl).
  - destruct (check_inputs_spec Author (FAttr (relationship "books")) (PStr "x"))
      as [_ H].
    by apply (H _ eq_refl).
Defined.

Lemma create_run_witness :
  ((create Invoice ∅ invoice [("grand_total", PInt 120)] calm).1 = Ok invoice
   ∧ trace (create Invoice ∅ invoice [("grand_total", PInt 120)] calm).2
     = [SessionAdd invoice; SessionCommit; LogInfo cycle_complete])
  ∧ idict (objects (create Invoice ∅ invoice
                      [("grand_total", PInt 120); ("_commit", PBool false)]
                      calm).2 invoice) !! "grand_total" = Some (PInt 120)
  ∧ trace (create Invoice ∅ invoice [("commit", PBool true)] calm).2 = []
  ∧ create Invoice ∅ invoice [("cls", PInt 1)] calm
    = (Raise (TypeError "create() got multiple values for argument"), calm).
Proof.
  split; [|split; [|split]].
  - destruct (create_run Invoice ∅ invoice [("grand_total", PInt 120)] calm)
      as (_ & _ & H).
    destruct H as (Hdefault & _); [by_evaluation | by_evaluation | by_evaluation |].
    apply Hdefault. by left.
  - destruct (create_run Invoice ∅ invoice
                [("grand_total", PInt 120); ("_commit", PBool false)] calm)
      as (_ & _ & H).
    destruct H as (_ & _ & Hoff); [by_evaluation | by_evaluation | by_evaluation |].
    destruct (Hoff (PBool false)) as (_ & _ & _ & _ & _ & _ & Hd); [done | done |].
    rewrite Hd. vm_compute. reflexivity.
  - destruct (create_run Invoice ∅ invoice [("commit", PBool true)] calm)
      as (_ & H & _).
    destruct H as (_ & Htr & _); [by_evaluation | left; by_evaluation | exact Htr].
  - destruct (create_run Invoice ∅ invoice [("cls", PInt 1)] calm) as (H & _).
    apply H. by_evaluation.
Defined.

Lemma prepare_columns_exact_witness :
  prepare 1 store publisher (RelBool false) true None
  = Some (Ok (ODict [("id", OVal (PInt 7)); ("active", OVal (PStr "Y"));
                     ("label", OVal (PStr "press"));
                     ("founded", OVal (PStr "2020-02-29 09:05:00"))]),
          ["password"]).
Proof.
  rewrite (prepare_columns_exact 0 store publisher None) by by_evaluation.
  vm_compute. reflexivity.
Defined.

Lemma prepare_selects_witness :
  prepare 1 store publisher (RelBool true) true None
  = prepare 1 store publisher (RelBool false) true None
  ∧ ∃ resp excl,
      prepare 2 store author (RelList [relationship "profile"]) true None
      = Some (Ok (ODict resp), excl)
      ∧ dict_get "books" resp = None.
Proof.
  destruct (prepare_selects 0 store publisher None) as (_ & Hnone & _).
  split; [by apply Hnone |].
  destruct (prepare_selects 0 store author None) as (_ & _ & Hsel).
  destruct (Hsel [relationship "profile"]) as (resp & excl & Hrun & Hget);
    [done |].
  exists resp, excl. split; [exact Hrun |].
  rewrite Hget by by_evaluation. vm_compute. reflexivity.
Defined.

End MoreInstances.
